(** * Snake.py: the simulation core of the snake game, embedded and verified

    The game is one function, [game_loop], made of three polling loops
    (intro screen, gameplay, game-over screen) over local variables.  The
    embedding keeps the variables and their names in a record, turns each
    loop body into a function from the events of one frame to the next
    state, and threads the random generator as a tape of draws.  Drawing,
    fonts and the clock have no effect on the variables and are left out. *)

From Stdlib Require Import ZArith List Bool Lia.
Import ListNotations.
Local Open Scope Z_scope.

(** ** Configuration (lines 20-26) *)

Definition SCREEN_WIDTH : Z := 800.
Definition SCREEN_HEIGHT : Z := 600.
Definition SNAKE_BLOCK_SIZE : Z := 20.

(** ** Events

    [pygame.event.get()] returns the events of one frame.  Only the event
    type and, for a key press, the key are read. *)

Inductive Key : Set :=
| K_LEFT | K_RIGHT | K_UP | K_DOWN | K_SPACE | K_q | K_c | K_other.

Inductive Event : Set :=
| QUIT
| KEYDOWN (key : Key)
| OTHER_EVENT.

Definition key_eqb (a b : Key) : bool :=
  match a, b with
  | K_LEFT, K_LEFT | K_RIGHT, K_RIGHT | K_UP, K_UP | K_DOWN, K_DOWN
  | K_SPACE, K_SPACE | K_q, K_q | K_c, K_c | K_other, K_other => true
  | _, _ => false
  end.

(** ** The random generator

    [random.randrange(0, n)] is the only call made.  The generator is a
    tape of raw integers, consumed from the front; [randrange] maps a raw
    integer into the half-open range, so every value of the range, and no
    other, can be drawn. *)

Definition Tape : Type := list Z.

Definition randrange (start stop raw : Z) : Z :=
  start + raw mod (stop - start).

(** The two draws of lines 143-144, 148-149 and 222-223. *)
Definition draw_food_x (raw : Z) : Z :=
  randrange 0 (SCREEN_WIDTH / SNAKE_BLOCK_SIZE) raw * SNAKE_BLOCK_SIZE.
Definition draw_food_y (raw : Z) : Z :=
  randrange 0 (SCREEN_HEIGHT / SNAKE_BLOCK_SIZE) raw * SNAKE_BLOCK_SIZE.

(** ** The variables of [game_loop]

    A segment is the two-element list [[x, y]]; lists compare by value.
    [snake_x] and [snake_y] start as the floats 400.0 and 300.0 and only
    ever change by a multiple of 20, so they stay integral and compare
    equal to the integers they denote: they are integers here. *)

Definition Segment : Type := (Z * Z)%type.

Definition segment_eqb (a b : Segment) : bool :=
  (fst a =? fst b) && (snd a =? snd b).

Record Game : Type := mkGame {
  snake_x : Z;
  snake_y : Z;
  snake_x_change : Z;
  snake_y_change : Z;
  last_key_pressed : Key;
  snake_segments : list Segment;
  snake_current_length : Z;
  current_player_score : Z;
  food_x : Z;
  food_y : Z;
  game_is_over : bool;
  quit_game_app : bool
}.

(** Assignments to one group of variables, the others kept. *)

Definition set_quit (g : Game) : Game :=
  mkGame (snake_x g) (snake_y g) (snake_x_change g) (snake_y_change g)
         (last_key_pressed g) (snake_segments g) (snake_current_length g)
         (current_player_score g) (food_x g) (food_y g) (game_is_over g) true.

Definition set_over (g : Game) : Game :=
  mkGame (snake_x g) (snake_y g) (snake_x_change g) (snake_y_change g)
         (last_key_pressed g) (snake_segments g) (snake_current_length g)
         (current_player_score g) (food_x g) (food_y g) true (quit_game_app g).

Definition steer (g : Game) (dx dy : Z) (key : Key) : Game :=
  mkGame (snake_x g) (snake_y g) dx dy key
         (snake_segments g) (snake_current_length g)
         (current_player_score g) (food_x g) (food_y g)
         (game_is_over g) (quit_game_app g).

Definition set_head (g : Game) (x y : Z) : Game :=
  mkGame x y (snake_x_change g) (snake_y_change g)
         (last_key_pressed g) (snake_segments g) (snake_current_length g)
         (current_player_score g) (food_x g) (food_y g)
         (game_is_over g) (quit_game_app g).

Definition set_segments (g : Game) (segs : list Segment) : Game :=
  mkGame (snake_x g) (snake_y g) (snake_x_change g) (snake_y_change g)
         (last_key_pressed g) segs (snake_current_length g)
         (current_player_score g) (food_x g) (food_y g)
         (game_is_over g) (quit_game_app g).

Definition eat (g : Game) (fx fy : Z) : Game :=
  mkGame (snake_x g) (snake_y g) (snake_x_change g) (snake_y_change g)
         (last_key_pressed g) (snake_segments g) (snake_current_length g + 1)
         (current_player_score g + 10) fx fy
         (game_is_over g) (quit_game_app g).

(** ** Input handling (lines 154-175)

    Every event of the frame is handled in turn.  The guard of each arrow
    key reads [last_key_pressed], which an earlier event of the same frame
    may already have changed. *)

Definition handle_event (g : Game) (event : Event) : Game :=
  let g := match event with QUIT => set_quit g | _ => g end in
  match event with
  | KEYDOWN key =>
      if key_eqb key K_LEFT && negb (key_eqb (last_key_pressed g) K_RIGHT)
      then steer g (- SNAKE_BLOCK_SIZE) 0 K_LEFT
      else if key_eqb key K_RIGHT && negb (key_eqb (last_key_pressed g) K_LEFT)
      then steer g SNAKE_BLOCK_SIZE 0 K_RIGHT
      else if key_eqb key K_UP && negb (key_eqb (last_key_pressed g) K_DOWN)
      then steer g 0 (- SNAKE_BLOCK_SIZE) K_UP
      else if key_eqb key K_DOWN && negb (key_eqb (last_key_pressed g) K_UP)
      then steer g 0 SNAKE_BLOCK_SIZE K_DOWN
      else g
  | _ => g
  end.

Definition process_events (events : list Event) (g : Game) : Game :=
  fold_left handle_event events g.

(** ** Movement and collisions (lines 177-199) *)

Definition move_head (g : Game) : Game :=
  set_head g (snake_x g + snake_x_change g) (snake_y g + snake_y_change g).

(** Line 183, with the bounds as arguments. *)
Definition wall_collision (width height x y : Z) : bool :=
  (x >=? width) || (x <? 0) || (y >=? height) || (y <? 0).

Definition hits_wall (g : Game) : bool :=
  wall_collision SCREEN_WIDTH SCREEN_HEIGHT (snake_x g) (snake_y g).

(** Lines 187-192: the head is appended, and the oldest segment deleted
    when the list has become longer than [snake_current_length]. *)
Definition trim (len : Z) (segs : list Segment) : list Segment :=
  if Z.of_nat (length segs) >? len then tl segs else segs.

(** Line 187. *)
Definition snake_head_pos (g : Game) : Segment := (snake_x g, snake_y g).

Definition settle (g : Game) : Game :=
  set_segments g
    (trim (snake_current_length g) (snake_segments g ++ [snake_head_pos g])).

(** Lines 196-199: [segs] is the list after [settle], its last element the
    head; [segs[:-1]] is [removelast segs]. *)
Definition self_collision (len : Z) (segs : list Segment) (head : Segment) : bool :=
  (len >? 1) && existsb (fun segment => segment_eqb segment head) (removelast segs).

Definition hits_self (g : Game) : bool :=
  self_collision (snake_current_length g) (snake_segments g)
                 (snake_head_pos g).

(** Lines 154-199: one frame up to the [break] test of line 201. *)
Definition advance (events : list Event) (g : Game) : Game :=
  let g := move_head (process_events events g) in
  let g := if hits_wall g then set_over g else g in
  let g := settle g in
  if hits_self g then set_over g else g.

(** ** Food (lines 141-149 and 217-234) *)

(** Lines 225-229. *)
Definition is_on_snake (segs : list Segment) (fx fy : Z) : bool :=
  existsb (fun segment => (fst segment =? fx) && (snd segment =? fy)) segs.

(** Lines 221-231, [while True]: two draws per round, until the cell is
    off the snake.  [None]: the loop is still running when the tape ends. *)
Fixpoint respawn_food (tape : Tape) (segs : list Segment)
  : option (Z * Z * Tape) :=
  match tape with
  | raw_x :: raw_y :: tape' =>
      let fx := draw_food_x raw_x in
      let fy := draw_food_y raw_y in
      if is_on_snake segs fx fy then respawn_food tape' segs
      else Some (fx, fy, tape')
  | _ => None
  end.

(** Lines 143-149: a first draw, repeated while it is the snake's start. *)
Fixpoint initial_food (tape : Tape) (sx sy : Z) : option (Z * Z * Tape) :=
  match tape with
  | raw_x :: raw_y :: tape' =>
      let fx := draw_food_x raw_x in
      let fy := draw_food_y raw_y in
      if (fx =? sx) && (fy =? sy) then initial_food tape' sx sy
      else Some (fx, fy, tape')
  | _ => None
  end.

(** Lines 218-234, run when line 201 did not leave the loop. *)
Definition consume_food (g : Game) (tape : Tape) : option (Game * Tape) :=
  if (snake_x g =? food_x g) && (snake_y g =? food_y g) then
    match respawn_food tape (snake_segments g) with
    | Some (fx, fy, tape') => Some (eat g fx fy, tape')
    | None => None
    end
  else Some (g, tape).

(** The body of the gameplay loop (lines 154-240). *)
Definition tick (events : list Event) (g : Game) (tape : Tape)
  : option (Game * Tape) :=
  let g := advance events g in
  if game_is_over g then Some (g, tape) else consume_food g tape.

(** The loop test of line 152. *)
Definition running (g : Game) : bool :=
  negb (game_is_over g) && negb (quit_game_app g).

(** Lines 95-96 and 129-149: the variables as gameplay starts. *)
Definition gameplay_init (tape : Tape) : option (Game * Tape) :=
  let sx := (SCREEN_WIDTH / 2 / SNAKE_BLOCK_SIZE) * SNAKE_BLOCK_SIZE in
  let sy := (SCREEN_HEIGHT / 2 / SNAKE_BLOCK_SIZE) * SNAKE_BLOCK_SIZE in
  match initial_food tape sx sy with
  | Some (fx, fy, tape') =>
      Some (mkGame sx sy SNAKE_BLOCK_SIZE 0 K_RIGHT [] 1 0 fx fy false false,
            tape')
  | None => None
  end.

(** ** The three screens (lines 98-126, 152, 242-268)

    [game_loop] shows the intro screen, runs the gameplay loop and, after a
    loss, the game-over screen; pressing C there calls [game_loop] again.
    No call returns (each ends in [sys.exit()] or in the nested call), so
    the screens form a machine that reads one frame of events per step.

    The calls nest: a call that has made the nested call of line 261 stays
    on the stack, suspended there, for the rest of the program, so the
    program is the screen of its innermost call together with the number
    of calls on the stack.  The interpreter has room for [max_depth] calls
    of [game_loop] (its recursion limit, 1000 unless set otherwise, less
    the frames it needs around and inside a call); one more raises
    RecursionError, which nothing catches.  [max_depth] is an argument. *)

Inductive Phase : Type :=
| Intro
| Playing (g : Game)
| GameOver (g : Game)
| Terminated
| Crashed.

(** Lines 110-119; the pair is [(intro_active, quit_game_app)]. *)
Definition intro_event (flags : bool * bool) (event : Event) : bool * bool :=
  match event with
  | QUIT => (false, true)
  | KEYDOWN K_SPACE => (false, snd flags)
  | KEYDOWN K_q => (false, true)
  | _ => flags
  end.

Definition intro_frame (events : list Event) (tape : Tape)
  : option (Phase * Tape) :=
  let flags := fold_left intro_event events (true, false) in
  if snd flags then Some (Terminated, tape)
  else if fst flags then Some (Intro, tape)
  else match gameplay_init tape with
       | Some (g, tape') => Some (Playing g, tape')
       | None => None
       end.

(** Lines 152 and 244 after a frame of gameplay. *)
Definition after_tick (g : Game) : Phase :=
  if running g then Playing g
  else if game_is_over g && negb (quit_game_app g) then GameOver g
  else Terminated.

(** Line 261, the nested call, made with [depth] calls on the stack: the
    new call shows its intro screen, or the stack is full and the program
    dies of RecursionError (raised by the call itself or by the first
    [display_message] of the new intro screen, before an event is read). *)
Definition nested_game_loop (max_depth depth : nat) : Phase * nat :=
  if (depth <? max_depth)%nat then (Intro, S depth) else (Crashed, depth).

(** Lines 252-264: C makes the nested call at once, whatever came before
    it in the frame; otherwise a quit request ends the program after the
    frame.  The result is the screen and the number of calls. *)
Fixpoint game_over_frame (max_depth depth : nat)
         (events : list Event) (g : Game) : Phase * nat :=
  match events with
  | [] => (if quit_game_app g then Terminated else GameOver g, depth)
  | QUIT :: events' => game_over_frame max_depth depth events' (set_quit g)
  | KEYDOWN K_q :: events' =>
      game_over_frame max_depth depth events' (set_quit g)
  | KEYDOWN K_c :: _ => nested_game_loop max_depth depth
  | _ :: events' => game_over_frame max_depth depth events' g
  end.

(** One frame of the program: [p] is the screen of the innermost call and
    the number of calls on the stack. *)
Definition step (max_depth : nat) (p : Phase * nat)
           (events : list Event) (tape : Tape)
  : option (Phase * nat * Tape) :=
  let depth := snd p in
  match fst p with
  | Intro =>
      match intro_frame events tape with
      | Some (screen, tape') => Some (screen, depth, tape')
      | None => None
      end
  | Playing g =>
      match tick events g tape with
      | Some (g', tape') => Some (after_tick g', depth, tape')
      | None => None
      end
  | GameOver g => Some (game_over_frame max_depth depth events g, tape)
  | Terminated => Some (Terminated, depth, tape)
  | Crashed => Some (Crashed, depth, tape)
  end.

Fixpoint run (max_depth : nat) (frames : list (list Event))
         (p : Phase * nat) (tape : Tape)
  : option (Phase * nat * Tape) :=
  match frames with
  | [] => Some (p, tape)
  | events :: frames' =>
      match step max_depth p events tape with
      | Some (p', tape') => run max_depth frames' p' tape'
      | None => None
      end
  end.

(** Line 273: the program, one call of [game_loop] on the stack. *)
Definition game_loop (max_depth : nat) (frames : list (list Event))
           (tape : Tape) : option (Phase * nat * Tape) :=
  run max_depth frames (Intro, 1%nat) tape.

(** ** Sessions

    The states a gameplay loop can be in when line 152 is evaluated: the
    initial one, and the one a frame leaves behind. *)

Inductive session_state : Game -> Prop :=
| session_start tape g tape' :
    gameplay_init tape = Some (g, tape') ->
    session_state g
| session_tick g events tape g' tape' :
    session_state g ->
    running g = true ->
    tick events g tape = Some (g', tape') ->
    session_state g'.

(** ** Vocabulary of the statements *)

Definition is_arrow (key : Key) : bool :=
  match key with
  | K_LEFT | K_RIGHT | K_UP | K_DOWN => true
  | _ => false
  end.

Definition opposite (key : Key) : Key :=
  match key with
  | K_LEFT => K_RIGHT
  | K_RIGHT => K_LEFT
  | K_UP => K_DOWN
  | K_DOWN => K_UP
  | other => other
  end.

(** The change of position per frame that an arrow key stands for. *)
Definition key_vector (key : Key) : Z * Z :=
  match key with
  | K_LEFT => (- SNAKE_BLOCK_SIZE, 0)
  | K_RIGHT => (SNAKE_BLOCK_SIZE, 0)
  | K_UP => (0, - SNAKE_BLOCK_SIZE)
  | K_DOWN => (0, SNAKE_BLOCK_SIZE)
  | _ => (0, 0)
  end.

Definition velocity (g : Game) : Z * Z := (snake_x_change g, snake_y_change g).
Definition food (g : Game) : Segment := (food_x g, food_y g).

(** The grid of food cells, column by column. *)
Definition grid_cells : list Segment :=
  flat_map
    (fun i => map (fun j => (Z.of_nat i * SNAKE_BLOCK_SIZE,
                             Z.of_nat j * SNAKE_BLOCK_SIZE))
                  (seq 0 (Z.to_nat (SCREEN_HEIGHT / SNAKE_BLOCK_SIZE))))
    (seq 0 (Z.to_nat (SCREEN_WIDTH / SNAKE_BLOCK_SIZE))).

Definition covers_grid (segs : list Segment) : bool :=
  forallb (fun cell => is_on_snake segs (fst cell) (snd cell)) grid_cells.

(** The tape on which the given pairs of raw integers are drawn in turn. *)
Fixpoint raw_pairs (draws : list (Z * Z)) : Tape :=
  match draws with
  | [] => []
  | (raw_x, raw_y) :: draws' => raw_x :: raw_y :: raw_pairs draws'
  end.

(** A cell of the screen. *)
Definition on_screen (c : Segment) : Prop :=
  0 <= fst c < SCREEN_WIDTH /\ 0 <= snd c < SCREEN_HEIGHT.

(** What holds of the variables whenever line 152 is evaluated. *)
Record session_invariant (g : Game) : Prop := {
  inv_length : 1 <= snake_current_length g;
  inv_cells :
    Z.of_nat (length (snake_segments g)) = snake_current_length g
    \/ Z.of_nat (length (snake_segments g)) = snake_current_length g - 1;
  inv_score : current_player_score g = 10 * (snake_current_length g - 1);
  inv_food_free : ~ In (food g) (snake_segments g);
  inv_food_head : food g <> snake_head_pos g;
  inv_food_screen : on_screen (food g);
  inv_on_screen :
    game_is_over g = false ->
    forall c, In c (snake_segments g) -> on_screen c
}.

(** [later_in_session g g']: [g'] comes zero or more frames after [g]. *)
Inductive later_in_session (g : Game) : Game -> Prop :=
| later_now : later_in_session g g
| later_tick g1 events tape g2 tape' :
    later_in_session g g1 ->
    running g1 = true ->
    tick events g1 tape = Some (g2, tape') ->
    later_in_session g g2.

(** The key last accepted is an arrow, and the snake moves its way. *)
Definition direction_consistent (g : Game) : Prop :=
  is_arrow (last_key_pressed g) = true
  /\ velocity g = key_vector (last_key_pressed g).

(** A screen of the program that shows a game shows one of a session. *)
Definition phase_in_session (p : Phase) : Prop :=
  match p with
  | Playing g => session_state g /\ running g = true
  | GameOver g => session_state g /\ quit_game_app g = false
  | Intro | Terminated | Crashed => True
  end.

(** ** States used in the statements *)

(** The start of a session whose first food draw is the cell (0, 0). *)
Definition fresh_game : Game :=
  mkGame 400 300 20 0 K_RIGHT [] 1 0 0 0 false false.

(** A snake that fills the screen: down the first column, up the second,
    and so on, tail first. *)
Definition serpentine_snake : list Segment :=
  flat_map
    (fun i => map (fun j => (Z.of_nat i * SNAKE_BLOCK_SIZE,
                             Z.of_nat j * SNAKE_BLOCK_SIZE))
                  (if Nat.even i then seq 0 30 else rev (seq 0 30)))
    (seq 0 40).

(** A length-1 snake at the top-left cell, heading right. *)
Definition heading_right_at_origin : Game :=
  mkGame 0 0 20 0 K_RIGHT [(0, 0)] 1 0 100 100 false false.

(** A length-1 snake that has come up the left edge to the top-left cell. *)
Definition heading_up_at_origin : Game :=
  mkGame 0 0 0 (-20) K_UP [(0, 0)] 1 0 100 100 false false.

(** A length-3 snake in the middle of the screen, heading right. *)
Definition three_long_heading_right : Game :=
  mkGame 400 300 20 0 K_RIGHT [(360, 300); (380, 300); (400, 300)] 3 20
         100 100 false false.

(** The session whose first food is one cell to the right of the start:
    the first frame eats it, and the next food is drawn at (0, 0). *)
Definition game_with_food_ahead : Game :=
  mkGame 400 300 20 0 K_RIGHT [] 1 0 420 300 false false.

Definition game_after_first_meal : Game :=
  mkGame 420 300 20 0 K_RIGHT [(420, 300)] 2 10 0 0 false false.



(** ** Drawing (lines 10-18, 56-74, 204-213)

    What a gameplay frame puts on the screen, in order.  The text of the
    score is rendered by a font; it is kept as the number shown. *)

Inductive Color : Set :=
| WHITE | YELLOW | BLACK | RED | GREEN | LIGHT_GREEN | BLUE | DARK_GRAY.

Inductive Drawing : Set :=
| Fill (color : Color)
| Rect (color : Color) (x y width height : Z)
| Circle (color : Color) (center_x center_y radius : Z)
| Score_text (score : Z).

(** Lines 63-74, one round of the loop: [n] is [len(snake_segments_list)]. *)
Definition draw_segment (snake_block_size : Z) (n : nat)
           (entry : nat * Segment) : list Drawing :=
  let i := fst entry in
  let segment_pos := snd entry in
  let is_head := Z.of_nat i =? Z.of_nat n - 1 in
  let segment_color :=
    if is_head then LIGHT_GREEN
    else if Z.of_nat i mod 2 =? 0 then GREEN else LIGHT_GREEN in
  [Rect BLACK (fst segment_pos) (snd segment_pos)
        snake_block_size snake_block_size;
   Rect segment_color (fst segment_pos + 1) (snd segment_pos + 1)
        (snake_block_size - 2) (snake_block_size - 2)].

(** Lines 56-74; [enumerate] pairs each segment with its index. *)
Definition draw_snake (snake_block_size : Z)
           (snake_segments_list : list Segment) : list Drawing :=
  flat_map
    (draw_segment snake_block_size (length snake_segments_list))
    (combine (seq 0 (length snake_segments_list)) snake_segments_list).

(** Lines 208-210. *)
Definition draw_food (g : Game) : Drawing :=
  let food_radius := SNAKE_BLOCK_SIZE / 2 in
  Circle RED (food_x g + food_radius) (food_y g + food_radius) food_radius.

(** Lines 205-213, reached when line 201 did not leave the loop: the
    variables are those [advance] left, the food not yet eaten. *)
Definition gameplay_drawing (g : Game) : list Drawing :=
  [Fill DARK_GRAY; draw_food g]
    ++ draw_snake SNAKE_BLOCK_SIZE (snake_segments g)
    ++ [Score_text (current_player_score g)].

(** ** Further vocabulary *)

(** A shape that lies within the window. *)
Definition in_window (d : Drawing) : Prop :=
  match d with
  | Rect _ x y width height =>
      0 <= x /\ x + width <= SCREEN_WIDTH
      /\ 0 <= y /\ y + height <= SCREEN_HEIGHT
  | Circle _ center_x center_y radius =>
      0 <= center_x - radius /\ center_x + radius <= SCREEN_WIDTH
      /\ 0 <= center_y - radius /\ center_y + radius <= SCREEN_HEIGHT
  | Fill _ | Score_text _ => True
  end.

(** A cell whose corner is on the grid of blocks. *)
Definition aligned (c : Segment) : Prop :=
  fst c mod SNAKE_BLOCK_SIZE = 0 /\ snd c mod SNAKE_BLOCK_SIZE = 0.

(** [b] is the cell next to [a] on one of its four sides. *)
Definition adjacent (a b : Segment) : Prop :=
  (snd b = snd a
   /\ (fst b = fst a + SNAKE_BLOCK_SIZE \/ fst b = fst a - SNAKE_BLOCK_SIZE))
  \/ (fst b = fst a
      /\ (snd b = snd a + SNAKE_BLOCK_SIZE \/ snd b = snd a - SNAKE_BLOCK_SIZE)).

(** Each segment is next to the one before it. *)
Fixpoint contiguous (segs : list Segment) : Prop :=
  match segs with
  | a :: (b :: _) as rest => adjacent a b /\ contiguous rest
  | _ => True
  end.

(** The shape of the snake whenever line 152 is evaluated. *)
Record snake_shape (g : Game) : Prop := {
  shape_head :
    snake_segments g = []
    \/ exists body, snake_segments g = body ++ [snake_head_pos g];
  shape_contiguous : contiguous (snake_segments g);
  shape_aligned :
    aligned (snake_head_pos g) /\ aligned (food g)
    /\ forall c, In c (snake_segments g) -> aligned c;
  shape_distinct : game_is_over g = false -> NoDup (snake_segments g)
}.



Definition is_steering (event : Event) : bool :=
  match event with
  | KEYDOWN key => is_arrow key
  | _ => false
  end.

Definition is_window_close (event : Event) : bool :=
  match event with
  | QUIT => true
  | _ => false
  end.


(** [n] frames of gameplay without any event, as long as the game runs. *)
Fixpoint idle_frames (n : nat) (g : Game) (tape : Tape)
  : option (Game * Tape) :=
  match n with
  | O => Some (g, tape)
  | S n' =>
      if running g then
        match tick [] g tape with
        | Some (g', tape') => idle_frames n' g' tape'
        | None => None
        end
      else Some (g, tape)
  end.

(** A session in which the snake eats on its first two frames and then
    turns up: the frames, the draws, and the game they lead to. *)
Definition turning_frames : list (list Event) :=
  [[KEYDOWN K_SPACE]; []; []; [KEYDOWN K_UP]].

Definition turning_tape : Tape := [21; 15; 22; 15; 23; 14].

Definition turning_snake : Game :=
  mkGame 440 280 0 (-20) K_UP [(420, 300); (440, 300); (440, 280)] 3 20
         460 280 false false.

(** How far the head is, in pixels, from leaving the screen the way the
    snake is heading. *)
Definition room_ahead (g : Game) : Z :=
  match last_key_pressed g with
  | K_RIGHT => SCREEN_WIDTH - 1 - snake_x g
  | K_LEFT => snake_x g
  | K_DOWN => SCREEN_HEIGHT - 1 - snake_y g
  | K_UP => snake_y g
  | _ => 0
  end.

(** * Properties *)

(** Reading a variable off a record that is written out. *)
Ltac game_fields :=
  cbn [snake_x snake_y snake_x_change snake_y_change last_key_pressed
       snake_segments snake_current_length current_player_score
       food_x food_y game_is_over quit_game_app fst snd] in *.

(** ** Basic facts about the comparisons *)

Lemma segment_eqb_eq (a b : Segment) : segment_eqb a b = true <-> a = b.
Proof.
  destruct a as [ax ay], b as [bx b_y]; unfold segment_eqb; simpl.
  rewrite andb_true_iff, !Z.eqb_eq. split.
  - intros [-> ->]; reflexivity.
  - intros E; inversion E; auto.
Qed.

Lemma is_on_snake_In (segs : list Segment) (fx fy : Z) :
  is_on_snake segs fx fy = true <-> In (fx, fy) segs.
Proof.
  unfold is_on_snake. rewrite existsb_exists. split.
  - intros [[sx sy] [Hin Heq]]; simpl in Heq.
    apply andb_true_iff in Heq as [Hx Hy].
    apply Z.eqb_eq in Hx, Hy. now subst.
  - intros Hin. exists (fx, fy); simpl. now rewrite !Z.eqb_refl.
Qed.

Lemma is_on_snake_false (segs : list Segment) (fx fy : Z) :
  is_on_snake segs fx fy = false <-> ~ In (fx, fy) segs.
Proof.
  rewrite <- is_on_snake_In. destruct (is_on_snake segs fx fy); split;
    congruence.
Qed.

(** ** Direction requests (C8) *)

Lemma handle_event_opposite (g : Game) (key : Key) :
  is_arrow key = true ->
  last_key_pressed g = opposite key ->
  handle_event g (KEYDOWN key) = g.
Proof.
  intros Harrow Hopp. unfold handle_event. rewrite Hopp.
  destruct key; simpl in *; try discriminate; reflexivity.
Qed.

Lemma handle_event_other (g : Game) (key : Key) :
  is_arrow key = true ->
  last_key_pressed g <> opposite key ->
  handle_event g (KEYDOWN key)
  = steer g (fst (key_vector key)) (snd (key_vector key)) key.
Proof.
  intros Harrow Hopp. unfold handle_event.
  destruct key; simpl in *; try discriminate;
    destruct (last_key_pressed g); simpl; try reflexivity; congruence.
Qed.

(** C8: a single arrow-key request handled during play leaves every
    variable as it was when the key is the opposite of [last_key_pressed],
    and otherwise sets the direction (key and change of position per frame)
    to the requested one, nothing else changing. *)
Theorem direction_request_rule (g : Game) (key : Key) :
  is_arrow key = true ->
  (last_key_pressed g = opposite key ->
   handle_event g (KEYDOWN key) = g)
  /\ (last_key_pressed g <> opposite key ->
      handle_event g (KEYDOWN key)
      = steer g (fst (key_vector key)) (snd (key_vector key)) key
      /\ last_key_pressed (handle_event g (KEYDOWN key)) = key
      /\ velocity (handle_event g (KEYDOWN key)) = key_vector key).
Proof.
  intros Harrow. split.
  - now apply handle_event_opposite.
  - intros Hother. rewrite handle_event_other by assumption.
    destruct key; try discriminate; repeat split.
Qed.

Lemma direction_request_rule_witness :
  handle_event fresh_game (KEYDOWN K_LEFT) = fresh_game
  /\ handle_event fresh_game (KEYDOWN K_UP) = steer fresh_game 0 (-20) K_UP
  /\ last_key_pressed (handle_event fresh_game (KEYDOWN K_UP)) = K_UP
  /\ velocity (handle_event fresh_game (KEYDOWN K_UP)) = (0, -20).
Proof.
  split.
  - apply (proj1 (direction_request_rule fresh_game K_LEFT eq_refl)).
    reflexivity.
  - apply (proj2 (direction_request_rule fresh_game K_UP eq_refl)).
    simpl. discriminate.
Defined.

(** ** Collisions (C4, C5) *)

Lemma process_events_set_segments events :
  forall g segs,
    process_events events (set_segments g segs)
    = set_segments (process_events events g) segs.
Proof.
  unfold process_events.
  induction events as [|event events IH]; intros g segs; simpl.
  - reflexivity.
  - rewrite <- IH. f_equal.
    destruct event as [| key |]; simpl; try reflexivity.
    destruct key, (last_key_pressed g); reflexivity.
Qed.

(** The flag after [advance]: what it was, or one of the two tests. *)
Lemma advance_game_is_over events g :
  let moved := move_head (process_events events g) in
  game_is_over (advance events g)
  = game_is_over moved || hits_wall moved
    || self_collision (snake_current_length moved)
         (trim (snake_current_length moved) (snake_segments moved ++ [snake_head_pos moved]))
         (snake_head_pos moved).
Proof.
  unfold advance. cbv zeta.
  generalize (move_head (process_events events g)) as moved.
  intros [x y dx dy key segs len score fx fy over quit].
  cbv beta iota delta
      [hits_wall hits_self settle snake_head_pos set_over set_segments
       snake_x snake_y snake_x_change snake_y_change last_key_pressed
       snake_segments snake_current_length current_player_score
       food_x food_y game_is_over quit_game_app].
  destruct (wall_collision SCREEN_WIDTH SCREEN_HEIGHT x y);
    match goal with |- context [self_collision ?a ?b ?c] =>
      destruct (self_collision a b c) end;
    destruct over; reflexivity.
Qed.

(** C4: the self-collision test of lines 196-199 fires exactly when the
    head is one of the segments before the last (the body without the head
    cell) and [snake_current_length] is greater than 1; at length 1 it
    never fires, whatever the segments. *)
Theorem self_collision_iff (len : Z) (segs : list Segment) (h : Segment) :
  (self_collision len segs h = true <-> In h (removelast segs) /\ len > 1)
  /\ self_collision 1 segs h = false.
Proof.
  split; [|reflexivity].
  unfold self_collision.
  rewrite andb_true_iff, existsb_exists. split.
  - intros [Hlen [s [Hin Heq]]]. apply segment_eqb_eq in Heq. subst s.
    split; [assumption|]. apply Z.gtb_lt in Hlen. lia.
  - intros [Hin Hlen]. split.
    + apply Z.gtb_lt. lia.
    + exists h. split; [assumption|]. now apply segment_eqb_eq.
Qed.

(** C5: the wall test of line 183 fires exactly when the head is outside
    [0, width) x [0, height); the test made in a frame is the same whatever
    the segments are. *)
Theorem wall_collision_iff :
  (forall width height x y : Z,
      wall_collision width height x y = true
      <-> x < 0 \/ x >= width \/ y < 0 \/ y >= height)
  /\ (forall events g segs,
         hits_wall (move_head (process_events events (set_segments g segs)))
         = hits_wall (move_head (process_events events g))).
Proof.
  split.
  - intros width height x y. unfold wall_collision.
    rewrite !orb_true_iff, Z.geb_le, Z.geb_le, !Z.ltb_lt. lia.
  - intros events g segs. rewrite process_events_set_segments. reflexivity.
Qed.

(** ** What a frame changes *)

(** Handling events touches the direction and the quit flag only. *)
Lemma process_events_frame events :
  forall g, exists dx dy key quit,
    process_events events g
    = mkGame (snake_x g) (snake_y g) dx dy key (snake_segments g)
             (snake_current_length g) (current_player_score g)
             (food_x g) (food_y g) (game_is_over g) quit.
Proof.
  unfold process_events.
  induction events as [|event events IH]; intros g; simpl.
  - destruct g; simpl; eauto.
  - destruct (IH (handle_event g event)) as (dx & dy & key & quit & ->).
    exists dx, dy, key, quit.
    destruct event as [| k |]; simpl; try reflexivity.
    destruct k, (last_key_pressed g); reflexivity.
Qed.

Lemma advance_frame events g :
  snake_current_length (advance events g) = snake_current_length g
  /\ current_player_score (advance events g) = current_player_score g
  /\ food (advance events g) = food g
  /\ snake_segments (advance events g)
     = trim (snake_current_length g)
            (snake_segments g ++ [snake_head_pos (advance events g)]).
Proof.
  unfold advance, food; cbv zeta.
  destruct (process_events_frame events g) as (dx & dy & key & quit & ->).
  unfold move_head, hits_wall, hits_self, settle, snake_head_pos; simpl.
  repeat match goal with
         | |- context [if ?c then _ else _] => destruct c; simpl
         end; auto.
Qed.

Lemma consume_food_cases g tape g' tape' :
  consume_food g tape = Some (g', tape') ->
  (snake_head_pos g <> food g /\ g' = g /\ tape' = tape)
  \/ (snake_head_pos g = food g
      /\ exists fx fy,
           respawn_food tape (snake_segments g) = Some (fx, fy, tape')
           /\ g' = eat g fx fy).
Proof.
  unfold consume_food, snake_head_pos, food.
  destruct ((snake_x g =? food_x g) && (snake_y g =? food_y g)) eqn:Hat.
  - apply andb_true_iff in Hat as [Hx Hy]. apply Z.eqb_eq in Hx, Hy.
    destruct (respawn_food tape (snake_segments g)) as [[[fx fy] t]|];
      [|discriminate].
    intros E; inversion E; subst. right. split; [congruence|]. eauto.
  - intros E; inversion E; subst. left. repeat split.
    intros Heq; inversion Heq as [[Hx Hy]].
    rewrite Hx, Hy, !Z.eqb_refl in Hat. discriminate.
Qed.

(** ** Turning within one frame (C1, C3) *)

(** C1: the code at the failing input.  After a frame without events the
    snake has moved right; when the next frame holds an Up and then a Left
    key press, both changes are applied in turn and the snake moves left,
    the direct opposite of the frame before, back onto the cell it came
    from.  A snake of length 3 dies of it. *)
Theorem two_turns_in_one_frame_reverse :
  velocity (advance [] fresh_game) = key_vector K_RIGHT
  /\ process_events [KEYDOWN K_UP] (advance [] fresh_game)
     = steer (advance [] fresh_game) 0 (-20) K_UP
  /\ velocity (advance [KEYDOWN K_UP; KEYDOWN K_LEFT] (advance [] fresh_game))
     = key_vector (opposite K_RIGHT)
  /\ snake_head_pos
       (advance [KEYDOWN K_UP; KEYDOWN K_LEFT] (advance [] fresh_game))
     = snake_head_pos fresh_game
  /\ game_is_over
       (advance [KEYDOWN K_UP; KEYDOWN K_LEFT] three_long_heading_right)
     = true.
Proof. repeat split. Qed.

(** C3, as stated, fails: from (0, 0) heading right, a frame holding a
    Left key press leaves the direction as it was, but does not put the
    head on (-20, 0) and hits no wall. *)
Lemma left_turn_at_origin_counterexample :
  ~ (last_key_pressed (advance [KEYDOWN K_LEFT] heading_right_at_origin)
     = K_RIGHT
     /\ snake_head_pos (advance [KEYDOWN K_LEFT] heading_right_at_origin)
        = (-20, 0)
     /\ hits_wall (advance [KEYDOWN K_LEFT] heading_right_at_origin) = true).
Proof. intros (_ & Hhead & _). vm_compute in Hhead. discriminate. Qed.

(** C3, amended: with the head at (0, 0) and the direction Right (since
    the frame began, or by the earlier events of the frame), a Left key
    press is ignored, and the head moves right to (20, 0), inside the
    screen: no wall is hit, and a snake of length 1 goes on playing. *)
Theorem left_turn_ignored_heading_right (g : Game) (earlier : list Event) :
  snake_head_pos g = (0, 0) ->
  last_key_pressed (process_events earlier g) = K_RIGHT ->
  velocity (process_events earlier g) = key_vector K_RIGHT ->
  process_events (earlier ++ [KEYDOWN K_LEFT]) g = process_events earlier g
  /\ last_key_pressed (advance (earlier ++ [KEYDOWN K_LEFT]) g) = K_RIGHT
  /\ velocity (advance (earlier ++ [KEYDOWN K_LEFT]) g) = key_vector K_RIGHT
  /\ snake_head_pos (advance (earlier ++ [KEYDOWN K_LEFT]) g) = (20, 0)
  /\ hits_wall (advance (earlier ++ [KEYDOWN K_LEFT]) g) = false
  /\ (snake_current_length g = 1 ->
      game_is_over (advance (earlier ++ [KEYDOWN K_LEFT]) g)
      = game_is_over g).
Proof.
  intros Hhead Hkey Hvel.
  assert (Hignored : process_events (earlier ++ [KEYDOWN K_LEFT]) g
                     = process_events earlier g).
  { unfold process_events. rewrite fold_left_app.
    change (fold_left handle_event [KEYDOWN K_LEFT]
                      (fold_left handle_event earlier g))
      with (handle_event (process_events earlier g) (KEYDOWN K_LEFT)).
    now apply handle_event_opposite. }
  split; [exact Hignored|].
  unfold advance; cbv zeta. rewrite Hignored.
  destruct (process_events_frame earlier g) as (dx & dy & key & quit & Hev).
  rewrite Hev in *. clear Hev Hignored.
  destruct g as [x y dx0 dy0 key0 segs len score fx fy over quit0].
  unfold snake_head_pos, velocity in *; game_fields.
  inversion Hhead; inversion Hvel; subst.
  unfold move_head, set_head; game_fields.
  change (0 + SNAKE_BLOCK_SIZE) with 20. change (0 + 0) with 0.
  unfold hits_wall at 1; game_fields.
  change (wall_collision SCREEN_WIDTH SCREEN_HEIGHT 20 0) with false.
  cbv iota.
  destruct (hits_self _) eqn:Hself; unfold settle, set_over, set_segments;
    game_fields; repeat split; trivial.
  intros ->. discriminate Hself.
Qed.

Lemma left_turn_ignored_heading_right_witness :
  process_events ([KEYDOWN K_RIGHT] ++ [KEYDOWN K_LEFT]) heading_up_at_origin
  = process_events [KEYDOWN K_RIGHT] heading_up_at_origin
  /\ last_key_pressed
       (advance ([KEYDOWN K_RIGHT] ++ [KEYDOWN K_LEFT]) heading_up_at_origin)
     = K_RIGHT
  /\ velocity
       (advance ([KEYDOWN K_RIGHT] ++ [KEYDOWN K_LEFT]) heading_up_at_origin)
     = key_vector K_RIGHT
  /\ snake_head_pos
       (advance ([KEYDOWN K_RIGHT] ++ [KEYDOWN K_LEFT]) heading_up_at_origin)
     = (20, 0)
  /\ hits_wall
       (advance ([KEYDOWN K_RIGHT] ++ [KEYDOWN K_LEFT]) heading_up_at_origin)
     = false
  /\ (snake_current_length heading_up_at_origin = 1 ->
      game_is_over
        (advance ([KEYDOWN K_RIGHT] ++ [KEYDOWN K_LEFT]) heading_up_at_origin)
      = game_is_over heading_up_at_origin).
Proof.
  apply (left_turn_ignored_heading_right heading_up_at_origin
                                         [KEYDOWN K_RIGHT]);
    reflexivity.
Defined.

(** ** Lists of segments *)

Lemma trim_length (len : Z) (segs : list Segment) (h : Segment) :
  Z.of_nat (length segs) = len \/ Z.of_nat (length segs) = len - 1 ->
  Z.of_nat (length (trim len (segs ++ [h]))) = len.
Proof.
  intros Hlen. unfold trim. rewrite length_app; simpl.
  destruct (Z.of_nat (length segs + 1) >? len) eqn:Hgt.
  - apply Z.gtb_lt in Hgt.
    destruct segs as [|s segs]; simpl in *; [lia|].
    rewrite length_app; simpl. lia.
  - rewrite length_app; simpl.
    assert (Hle : Z.of_nat (length segs + 1) <= len).
    { destruct (Z.gtb_spec (Z.of_nat (length segs + 1)) len); [discriminate|lia]. }
    lia.
Qed.

Lemma trim_incl (len : Z) (segs : list Segment) (c : Segment) :
  In c (trim len segs) -> In c segs.
Proof.
  unfold trim. destruct (_ >? _); [|trivial].
  destruct segs; simpl; auto.
Qed.

Lemma trim_keeps_head (len : Z) (segs : list Segment) (h : Segment) :
  1 <= len -> In h (trim len (segs ++ [h])).
Proof.
  intros Hlen. unfold trim.
  destruct (Z.of_nat (length (segs ++ [h])) >? len) eqn:Hgt.
  - destruct segs as [|s segs]; simpl in *.
    + apply Z.gtb_lt in Hgt. lia.
    + apply in_or_app. right. now left.
  - apply in_or_app. right. now left.
Qed.

Lemma removelast_trim_incl (len : Z) (segs : list Segment) (h c : Segment) :
  In c (removelast (trim len (segs ++ [h]))) -> In c segs.
Proof.
  unfold trim. destruct (_ >? _).
  - destruct segs as [|s segs]; simpl; [tauto|].
    rewrite removelast_last. auto.
  - rewrite removelast_last. trivial.
Qed.

(** ** Food draws *)

Lemma draw_food_on_screen (raw_x raw_y : Z) :
  on_screen (draw_food_x raw_x, draw_food_y raw_y).
Proof.
  unfold on_screen, draw_food_x, draw_food_y, randrange.
  cbn [fst snd].
  replace (SCREEN_WIDTH / SNAKE_BLOCK_SIZE - 0) with 40 by reflexivity.
  replace (SCREEN_HEIGHT / SNAKE_BLOCK_SIZE - 0) with 30 by reflexivity.
  unfold SCREEN_WIDTH, SCREEN_HEIGHT, SNAKE_BLOCK_SIZE.
  pose proof (Z.mod_pos_bound raw_x 40 ltac:(lia)).
  pose proof (Z.mod_pos_bound raw_y 30 ltac:(lia)).
  lia.
Qed.

(** Induction on a tape two draws at a time, as the loops consume it. *)
Lemma tape_pairs_ind (P : Tape -> Prop) :
  P [] ->
  (forall raw, P [raw]) ->
  (forall raw_x raw_y tape, P tape -> P (raw_x :: raw_y :: tape)) ->
  forall tape, P tape.
Proof.
  intros Hnil Hone Hpair tape.
  enough (H : P tape /\ forall raw, P (raw :: tape)) by apply H.
  induction tape as [|raw tape [IH1 IH2]]; split; auto.
Qed.

Lemma respawn_food_spec (tape : Tape) (segs : list Segment) :
  forall fx fy tape',
    respawn_food tape segs = Some (fx, fy, tape') ->
    is_on_snake segs fx fy = false /\ on_screen (fx, fy).
Proof.
  induction tape as [|raw|raw_x raw_y tape IH] using tape_pairs_ind;
    intros fx fy tape'; simpl; try discriminate.
  destruct (is_on_snake segs (draw_food_x raw_x) (draw_food_y raw_y)) eqn:Hon.
  - apply IH.
  - intros E; inversion E; subst. split; [assumption|].
    apply draw_food_on_screen.
Qed.

Lemma initial_food_spec (tape : Tape) (sx sy : Z) :
  forall fx fy tape',
    initial_food tape sx sy = Some (fx, fy, tape') ->
    (fx, fy) <> (sx, sy) /\ on_screen (fx, fy).
Proof.
  induction tape as [|raw|raw_x raw_y tape IH] using tape_pairs_ind;
    intros fx fy tape'; simpl; try discriminate.
  destruct ((draw_food_x raw_x =? sx) && (draw_food_y raw_y =? sy)) eqn:Hat.
  - apply IH.
  - intros E; inversion E; subst. split; [|apply draw_food_on_screen].
    intros Heq; inversion Heq as [[Hx Hy]].
    rewrite Hx, Hy, !Z.eqb_refl in Hat. discriminate.
Qed.

(** ** The invariant of a session *)

Lemma gameplay_init_invariant tape g tape' :
  gameplay_init tape = Some (g, tape') -> session_invariant g.
Proof.
  unfold gameplay_init; cbv zeta.
  destruct (initial_food tape _ _) as [[[fx fy] t]|] eqn:Hfood; [|discriminate].
  intros E; inversion E; subst; clear E.
  apply initial_food_spec in Hfood as [Hne Hscreen].
  constructor; simpl; auto; try lia; contradiction.
Qed.

Lemma hits_wall_off_screen (g : Game) :
  hits_wall g = true -> ~ on_screen (snake_head_pos g).
Proof.
  unfold hits_wall, wall_collision, on_screen, snake_head_pos; simpl.
  rewrite !orb_true_iff, Z.geb_le, Z.geb_le, !Z.ltb_lt. lia.
Qed.

Lemma hits_wall_on_screen (g : Game) :
  hits_wall g = false -> on_screen (snake_head_pos g).
Proof.
  unfold hits_wall, wall_collision, on_screen, snake_head_pos; simpl.
  rewrite !orb_false_iff, !Z.geb_leb, !Z.leb_gt, !Z.ltb_ge. lia.
Qed.

Lemma advance_head events g :
  snake_head_pos (advance events g)
  = snake_head_pos (move_head (process_events events g)).
Proof.
  unfold advance; cbv zeta.
  generalize (move_head (process_events events g)) as m. intros m.
  unfold hits_wall, hits_self, settle, snake_head_pos.
  repeat match goal with
         | |- context [if ?c then _ else _] => destruct c; simpl
         end; reflexivity.
Qed.

(** A frame that does not end the game has put the head on the screen. *)
Lemma advance_head_on_screen events g :
  game_is_over (advance events g) = false ->
  on_screen (snake_head_pos (advance events g)).
Proof.
  intros Hover. rewrite advance_head. apply hits_wall_on_screen.
  pose proof (advance_game_is_over events g) as Hflag. cbv zeta in Hflag.
  rewrite Hflag in Hover.
  apply orb_false_iff in Hover as [Hover _].
  now apply orb_false_iff in Hover as [_ Hwall].
Qed.

(** After [advance] the head is on the food only if the game goes on. *)
Lemma advance_food_not_head_when_over events g :
  session_invariant g ->
  game_is_over g = false ->
  game_is_over (advance events g) = true ->
  food g <> snake_head_pos (advance events g).
Proof.
  intros Hinv Hplay Hover Heq.
  pose proof (advance_game_is_over events g) as Hflag. cbv zeta in Hflag.
  rewrite Hflag in Hover; clear Hflag.
  rewrite advance_head in Heq.
  destruct (process_events_frame events g) as (dx & dy & key & quit & Hev).
  assert (Hsame : game_is_over (move_head (process_events events g)) = false
                  /\ snake_segments (move_head (process_events events g))
                     = snake_segments g).
  { rewrite Hev; simpl. auto. }
  destruct Hsame as [Hover0 Hsegs].
  rewrite Hover0, Hsegs in Hover; simpl in Hover.
  apply orb_true_iff in Hover as [Hwall | Hself].
  - apply hits_wall_off_screen in Hwall. rewrite <- Heq in Hwall.
    exact (Hwall (inv_food_screen g Hinv)).
  - unfold self_collision in Hself. apply andb_true_iff in Hself as [_ Hself].
    apply existsb_exists in Hself as [s [Hin Hs]].
    apply segment_eqb_eq in Hs. subst s.
    apply removelast_trim_incl in Hin. rewrite <- Heq in Hin.
    exact (inv_food_free g Hinv Hin).
Qed.

Lemma tick_invariant events g tape g' tape' :
  session_invariant g ->
  running g = true ->
  tick events g tape = Some (g', tape') ->
  session_invariant g'.
Proof.
  intros Hinv Hrun. unfold tick; cbv zeta.
  apply andb_true_iff in Hrun as [Hplay _]. apply negb_true_iff in Hplay.
  destruct (advance_frame events g) as (Hlen & Hscore & Hfood & Hsegs).
  pose proof (inv_length g Hinv) as H1.
  assert (Hcells : Z.of_nat (length (snake_segments (advance events g)))
                   = snake_current_length g).
  { rewrite Hsegs. apply trim_length, (inv_cells g Hinv). }
  assert (Hheadin : In (snake_head_pos (advance events g))
                       (snake_segments (advance events g))).
  { rewrite Hsegs. now apply trim_keeps_head. }
  assert (Hkept : food g <> snake_head_pos (advance events g) ->
                  session_invariant (advance events g)).
  { intros Hne. constructor; rewrite ?Hlen, ?Hscore, ?Hfood.
    - assumption.
    - left. assumption.
    - apply (inv_score g Hinv).
    - rewrite Hsegs. intros Hin. apply trim_incl, in_app_or in Hin.
      destruct Hin as [Hin | [Hin | []]].
      + exact (inv_food_free g Hinv Hin).
      + exact (Hne (eq_sym Hin)).
    - assumption.
    - apply (inv_food_screen g Hinv).
    - intros Hover c Hin. rewrite Hsegs in Hin.
      apply trim_incl, in_app_or in Hin. destruct Hin as [Hin | [<- | []]].
      + now apply (inv_on_screen g Hinv).
      + now apply advance_head_on_screen. }
  destruct (game_is_over (advance events g)) eqn:Hover.
  - intros E; inversion E; subst.
    apply Hkept. now apply advance_food_not_head_when_over.
  - intros Heat. apply consume_food_cases in Heat
      as [(Hne & -> & ->) | (Hat & fx & fy & Hspawn & ->)].
    + apply Hkept. rewrite <- Hfood. congruence.
    + apply respawn_food_spec in Hspawn as [Hfree Hscreen].
      apply is_on_snake_false in Hfree.
      constructor; unfold food, snake_head_pos, eat in *; game_fields.
      * lia.
      * right. lia.
      * rewrite Hscore, Hlen, (inv_score g Hinv). lia.
      * assumption.
      * intros Heq. apply Hfree. rewrite Heq. assumption.
      * assumption.
      * intros _ c Hin. rewrite Hsegs in Hin.
        apply trim_incl, in_app_or in Hin. destruct Hin as [Hin | [<- | []]].
        -- now apply (inv_on_screen g Hinv).
        -- now apply (advance_head_on_screen events g).
Qed.

Lemma session_state_invariant g : session_state g -> session_invariant g.
Proof.
  induction 1 as [tape g tape' Hinit | g events tape g' tape' _ IH Hrun Htick].
  - eapply gameplay_init_invariant; eassumption.
  - eapply tick_invariant; eassumption.
Qed.

(** ** The direction in a session *)

Lemma handle_event_direction (g : Game) (event : Event) :
  direction_consistent g -> direction_consistent (handle_event g event).
Proof.
  destruct g as [x y dx dy last segs len score fx fy over quit].
  unfold direction_consistent, velocity. intros [Harrow Hvel].
  destruct event as [| key |]; try (split; assumption).
  unfold handle_event; game_fields.
  destruct key, last; simpl in *; try discriminate; split; trivial.
Qed.

Lemma process_events_direction (events : list Event) :
  forall g, direction_consistent g ->
            direction_consistent (process_events events g).
Proof.
  unfold process_events.
  induction events as [|event events IH]; intros g Hg; simpl; [assumption|].
  now apply IH, handle_event_direction.
Qed.

Lemma advance_direction events g :
  last_key_pressed (advance events g)
  = last_key_pressed (process_events events g)
  /\ velocity (advance events g) = velocity (process_events events g).
Proof.
  unfold advance; cbv zeta.
  generalize (process_events events g) as m. intros m.
  unfold move_head, hits_wall, hits_self, settle, velocity.
  repeat match goal with
         | |- context [if ?c then _ else _] => destruct c; simpl
         end; auto.
Qed.

(** Throughout a session [last_key_pressed] is the direction of travel. *)
Lemma session_state_direction g :
  session_state g -> direction_consistent g.
Proof.
  induction 1 as [tape g tape' Hinit | g events tape g' tape' _ IH _ Htick].
  - unfold gameplay_init in Hinit; cbv zeta in Hinit.
    destruct (initial_food tape _ _) as [[[fx fy] t]|]; [|discriminate].
    inversion Hinit; subst. split; reflexivity.
  - apply (process_events_direction events) in IH.
    destruct (advance_direction events g) as [Hkey Hvel].
    assert (Hadv : direction_consistent (advance events g)).
    { unfold direction_consistent. rewrite Hkey, Hvel. exact IH. }
    unfold tick in Htick; cbv zeta in Htick.
    destruct (game_is_over (advance events g)).
    + inversion Htick; subst. exact Hadv.
    + apply consume_food_cases in Htick
        as [(_ & -> & _) | (_ & fx & fy & _ & ->)]; exact Hadv.
Qed.

(** ** The two collision tests in a session *)

Lemma fresh_game_session_state : session_state fresh_game.
Proof. now apply (session_start [0; 0] fresh_game []). Qed.

(** X1: in a frame of a running session the wall test and the self test
    never both fire: the segments are all on the screen, and a head that hits
    the wall is off it.  Which of the two is looked at first makes no
    difference to what ends a game. *)
Theorem wall_and_self_tests_exclusive (g : Game) (events : list Event) :
  session_state g ->
  running g = true ->
  hits_wall (move_head (process_events events g))
  && hits_self (settle (move_head (process_events events g))) = false.
Proof.
  intros Hsession Hrun. apply session_state_invariant in Hsession as Hinv.
  apply andb_true_iff in Hrun as [Hplay _]. apply negb_true_iff in Hplay.
  destruct (hits_wall _) eqn:Hwall; [simpl | reflexivity].
  destruct (hits_self _) eqn:Hself; [exfalso | reflexivity].
  apply hits_wall_off_screen in Hwall. apply Hwall.
  destruct (process_events_frame events g) as (dx & dy & key & quit & Hev).
  rewrite Hev in *.
  unfold hits_self, self_collision, settle, set_segments, move_head, set_head,
    snake_head_pos in *; game_fields.
  apply andb_true_iff in Hself as [_ Hself].
  apply existsb_exists in Hself as [s [Hin Hs]].
  apply segment_eqb_eq in Hs. subst s.
  apply removelast_trim_incl in Hin.
  now apply (inv_on_screen g Hinv).
Qed.

Lemma wall_and_self_tests_exclusive_witness :
  hits_wall (move_head (process_events [KEYDOWN K_UP] fresh_game))
  && hits_self (settle (move_head (process_events [KEYDOWN K_UP] fresh_game)))
  = false.
Proof.
  apply (wall_and_self_tests_exclusive fresh_game [KEYDOWN K_UP]).
  - exact fresh_game_session_state.
  - reflexivity.
Defined.

(** ** Length, score and food over a session (C6, C7, C10) *)

(** A frame changes length and score together, and only by eating. *)
Lemma tick_growth events g tape g' tape' :
  tick events g tape = Some (g', tape') ->
  (snake_current_length g' = snake_current_length g
   /\ current_player_score g' = current_player_score g)
  \/ (game_is_over (advance events g) = false
      /\ snake_head_pos (advance events g) = food g
      /\ snake_current_length g' = snake_current_length g + 1
      /\ current_player_score g' = current_player_score g + 10).
Proof.
  unfold tick; cbv zeta.
  destruct (advance_frame events g) as (Hlen & Hscore & Hfood & _).
  destruct (game_is_over (advance events g)) eqn:Hover.
  - intros E; inversion E; subst. left. auto.
  - intros Heat. apply consume_food_cases in Heat
      as [(_ & -> & _) | (Hat & fx & fy & _ & ->)].
    + left. auto.
    + right. split; [reflexivity|]. split; [congruence|].
      unfold eat; game_fields. split; congruence.
Qed.

(** C6: in every session, once a frame has appended the head and deleted
    the oldest segment if the list had outgrown [snake_current_length],
    the number of segments equals [snake_current_length]; and
    [snake_current_length] never decreases, from one frame to the next
    and so over any number of frames. *)
Theorem cells_match_length_after_settling (g : Game) (events : list Event) :
  session_state g ->
  Z.of_nat (length (snake_segments (advance events g)))
  = snake_current_length (advance events g)
  /\ (forall tape g' tape',
         tick events g tape = Some (g', tape') ->
         snake_current_length g <= snake_current_length g')
  /\ (forall g', later_in_session g g' ->
                 snake_current_length g <= snake_current_length g').
Proof.
  intros Hsession. apply session_state_invariant in Hsession as Hinv.
  destruct (advance_frame events g) as (Hlen & _ & _ & Hsegs).
  split; [|split].
  - rewrite Hsegs, Hlen. apply trim_length, (inv_cells g Hinv).
  - intros tape g' tape' Htick.
    apply tick_growth in Htick as [[-> _] | (_ & _ & -> & _)]; lia.
  - induction 1 as [|g1 evs tape g2 tape' _ IH _ Htick]; [lia|].
    apply tick_growth in Htick as [[-> _] | (_ & _ & -> & _)]; lia.
Qed.

Lemma cells_match_length_after_settling_witness :
  Z.of_nat (length (snake_segments (advance [] fresh_game)))
  = snake_current_length (advance [] fresh_game)
  /\ (forall tape g' tape',
         tick [] fresh_game tape = Some (g', tape') ->
         snake_current_length fresh_game <= snake_current_length g')
  /\ (forall g', later_in_session fresh_game g' ->
                 snake_current_length fresh_game <= snake_current_length g').
Proof.
  apply (cells_match_length_after_settling fresh_game []).
  exact fresh_game_session_state.
Defined.

Lemma game_after_first_meal_session_state :
  session_state game_after_first_meal.
Proof.
  apply (session_tick game_with_food_ahead [] [0; 0] game_after_first_meal []).
  - now apply (session_start [21; 15] game_with_food_ahead []).
  - reflexivity.
  - reflexivity.
Qed.

(** C7: whenever the loop test of line 152 is evaluated (at the start of
    a session and after every frame, respawns included) the food is on
    none of the snake's segments and not on its head; the respawn loop
    only returns a cell that is on none of the segments it was given, and
    the initial draw only one that is not the snake's starting cell.
    Within a frame the head is on the food it eats from the move until the
    respawn. *)
Theorem food_never_on_snake :
  (forall g, session_state g ->
     ~ In (food g) (snake_segments g) /\ food g <> snake_head_pos g)
  /\ (forall tape segs fx fy tape',
        respawn_food tape segs = Some (fx, fy, tape') ->
        ~ In (fx, fy) segs)
  /\ (forall tape sx sy fx fy tape',
        initial_food tape sx sy = Some (fx, fy, tape') ->
        (fx, fy) <> (sx, sy)).
Proof.
  split; [|split].
  - intros g Hsession. apply session_state_invariant in Hsession as Hinv.
    split; [apply (inv_food_free g Hinv) | apply (inv_food_head g Hinv)].
  - intros tape segs fx fy tape' Hspawn.
    apply respawn_food_spec in Hspawn as [Hfree _].
    now apply is_on_snake_false.
  - intros tape sx sy fx fy tape' Hinit.
    now apply initial_food_spec in Hinit as [Hne _].
Qed.

Lemma food_never_on_snake_witness :
  (~ In (food game_after_first_meal) (snake_segments game_after_first_meal)
   /\ food game_after_first_meal <> snake_head_pos game_after_first_meal)
  /\ ~ In (0, 0) [(420, 300)]
  /\ (420, 300) <> (400, 300).
Proof.
  split; [|split].
  - apply (proj1 food_never_on_snake game_after_first_meal).
    exact game_after_first_meal_session_state.
  - apply (proj1 (proj2 food_never_on_snake) [21; 15; 0; 0] [(420, 300)]
                 0 0 []).
    reflexivity.
  - apply (proj2 (proj2 food_never_on_snake) [21; 15] 400 300 420 300 []).
    reflexivity.
Defined.

(** C10: in every session the score is ten times the length minus one:
    a session starts with score 0 and length 1, and a frame either leaves
    both as they were or, when the head has reached the food and the game
    goes on, adds exactly 1 to the length and exactly 10 to the score. *)
Theorem score_is_ten_per_growth (g : Game) :
  session_state g ->
  current_player_score g = 10 * (snake_current_length g - 1)
  /\ (forall tape g0 tape',
         gameplay_init tape = Some (g0, tape') ->
         current_player_score g0 = 0 /\ snake_current_length g0 = 1)
  /\ (forall events tape g' tape',
         tick events g tape = Some (g', tape') ->
         (snake_current_length g' = snake_current_length g
          /\ current_player_score g' = current_player_score g)
         \/ (snake_head_pos (advance events g) = food g
             /\ snake_current_length g' = snake_current_length g + 1
             /\ current_player_score g' = current_player_score g + 10)).
Proof.
  intros Hsession. apply session_state_invariant in Hsession as Hinv.
  split; [apply (inv_score g Hinv) | split].
  - intros tape g0 tape'. unfold gameplay_init; cbv zeta.
    destruct (initial_food tape _ _) as [[[fx fy] t]|]; [|discriminate].
    intros E; inversion E; subst. auto.
  - intros events tape g' tape' Htick.
    apply tick_growth in Htick as [Hsame | (_ & Hat & Hlen & Hscore)]; auto.
Qed.

Lemma score_is_ten_per_growth_witness :
  current_player_score game_after_first_meal
  = 10 * (snake_current_length game_after_first_meal - 1)
  /\ (forall tape g0 tape',
         gameplay_init tape = Some (g0, tape') ->
         current_player_score g0 = 0 /\ snake_current_length g0 = 1)
  /\ (forall events tape g' tape',
         tick events game_after_first_meal tape = Some (g', tape') ->
         (snake_current_length g' = snake_current_length game_after_first_meal
          /\ current_player_score g'
             = current_player_score game_after_first_meal)
         \/ (snake_head_pos (advance events game_after_first_meal)
             = food game_after_first_meal
             /\ snake_current_length g'
                = snake_current_length game_after_first_meal + 1
             /\ current_player_score g'
                = current_player_score game_after_first_meal + 10)).
Proof.
  apply (score_is_ten_per_growth game_after_first_meal).
  exact game_after_first_meal_session_state.
Defined.

(** ** The respawn loop (C2) *)

Lemma grid_cells_In (i j : Z) :
  0 <= i < 40 -> 0 <= j < 30 ->
  In (i * SNAKE_BLOCK_SIZE, j * SNAKE_BLOCK_SIZE) grid_cells.
Proof.
  intros Hi Hj. unfold grid_cells.
  change (Z.to_nat (SCREEN_WIDTH / SNAKE_BLOCK_SIZE)) with 40%nat.
  change (Z.to_nat (SCREEN_HEIGHT / SNAKE_BLOCK_SIZE)) with 30%nat.
  apply in_flat_map. exists (Z.to_nat i). split; [apply in_seq; lia|].
  apply in_map_iff. exists (Z.to_nat j). split; [|apply in_seq; lia].
  now rewrite !Z2Nat.id by lia.
Qed.

Lemma draw_food_in_grid (raw_x raw_y : Z) :
  In (draw_food_x raw_x, draw_food_y raw_y) grid_cells.
Proof.
  unfold draw_food_x, draw_food_y, randrange.
  replace (SCREEN_WIDTH / SNAKE_BLOCK_SIZE - 0) with 40 by reflexivity.
  replace (SCREEN_HEIGHT / SNAKE_BLOCK_SIZE - 0) with 30 by reflexivity.
  rewrite !Z.add_0_l.
  apply grid_cells_In; apply Z.mod_pos_bound; lia.
Qed.

Lemma grid_cells_drawn (c : Segment) :
  In c grid_cells ->
  exists raw_x raw_y, c = (draw_food_x raw_x, draw_food_y raw_y).
Proof.
  unfold grid_cells.
  change (Z.to_nat (SCREEN_WIDTH / SNAKE_BLOCK_SIZE)) with 40%nat.
  change (Z.to_nat (SCREEN_HEIGHT / SNAKE_BLOCK_SIZE)) with 30%nat.
  intros Hin. apply in_flat_map in Hin as [i [Hi Hin]].
  apply in_map_iff in Hin as [j [<- Hj]].
  apply in_seq in Hi, Hj.
  exists (Z.of_nat i), (Z.of_nat j).
  unfold draw_food_x, draw_food_y, randrange.
  replace (SCREEN_WIDTH / SNAKE_BLOCK_SIZE - 0) with 40 by reflexivity.
  replace (SCREEN_HEIGHT / SNAKE_BLOCK_SIZE - 0) with 30 by reflexivity.
  rewrite !Z.add_0_l, !Z.mod_small by lia. reflexivity.
Qed.

Lemma covers_grid_true (segs : list Segment) :
  covers_grid segs = true ->
  forall raw_x raw_y,
    is_on_snake segs (draw_food_x raw_x) (draw_food_y raw_y) = true.
Proof.
  unfold covers_grid. intros Hall raw_x raw_y.
  rewrite forallb_forall in Hall.
  apply (Hall (draw_food_x raw_x, draw_food_y raw_y)), draw_food_in_grid.
Qed.

Lemma covers_grid_false (segs : list Segment) :
  covers_grid segs = false ->
  exists raw_x raw_y,
    is_on_snake segs (draw_food_x raw_x) (draw_food_y raw_y) = false.
Proof.
  unfold covers_grid. intros Hsome.
  assert (Hcell : exists c, In c grid_cells
                            /\ is_on_snake segs (fst c) (snd c) = false).
  { induction grid_cells as [|c cells IH]; simpl in Hsome; [discriminate|].
    destruct (is_on_snake segs (fst c) (snd c)) eqn:Hc.
    - destruct (IH Hsome) as [c' [Hin Hfree]]. exists c'. simpl; auto.
    - exists c. simpl; auto. }
  destruct Hcell as [c [Hin Hfree]].
  apply grid_cells_drawn in Hin as (raw_x & raw_y & ->).
  exists raw_x, raw_y. exact Hfree.
Qed.

Lemma respawn_food_all_on_snake (segs : list Segment) :
  (forall raw_x raw_y,
      is_on_snake segs (draw_food_x raw_x) (draw_food_y raw_y) = true) ->
  forall tape, respawn_food tape segs = None.
Proof.
  intros Hall tape.
  induction tape as [|raw|raw_x raw_y tape IH] using tape_pairs_ind; simpl;
    trivial.
  now rewrite Hall.
Qed.

Lemma respawn_food_after_misses (segs : list Segment) (missed : list (Z * Z)) :
  forall tape,
    respawn_food (raw_pairs missed) segs = None ->
    respawn_food (raw_pairs missed ++ tape) segs = respawn_food tape segs.
Proof.
  induction missed as [|[raw_x raw_y] missed IH]; intros tape; simpl.
  - reflexivity.
  - destruct (is_on_snake segs (draw_food_x raw_x) (draw_food_y raw_y));
      [apply IH | discriminate].
Qed.

Lemma serpentine_snake_covers_grid : covers_grid serpentine_snake = true.
Proof. vm_compute. reflexivity. Qed.

(** C2, as stated, fails: when the snake fills the screen the respawn loop
    returns on no tape of draws, however long; it reports nothing. *)
Lemma respawn_on_full_screen_counterexample :
  ~ (exists tape, respawn_food tape serpentine_snake <> None).
Proof.
  intros [tape Hends]. apply Hends.
  apply respawn_food_all_on_snake, covers_grid_true.
  exact serpentine_snake_covers_grid.
Qed.

(** C2, amended: when the segments cover every cell of the grid the
    respawn loop never ends, whatever is drawn, and so neither does the
    frame that eats the food (the code has no exhaustion report); when they
    leave a cell free, then after any draws that landed on the snake there
    is a next draw that ends the loop at once, returning that free cell. *)
Theorem respawn_food_ends_iff_cell_free (segs : list Segment) :
  (covers_grid segs = true ->
     (forall tape, respawn_food tape segs = None)
     /\ (forall g tape,
           snake_segments g = segs -> snake_head_pos g = food g ->
           consume_food g tape = None))
  /\ (covers_grid segs = false ->
      forall missed,
        respawn_food (raw_pairs missed) segs = None ->
        exists raw_x raw_y,
          ~ In (draw_food_x raw_x, draw_food_y raw_y) segs
          /\ forall tape,
               respawn_food (raw_pairs missed ++ raw_x :: raw_y :: tape) segs
               = Some (draw_food_x raw_x, draw_food_y raw_y, tape)).
Proof.
  split.
  - intros Hfull.
    assert (Hnever : forall tape, respawn_food tape segs = None)
      by now apply respawn_food_all_on_snake, covers_grid_true.
    split; [exact Hnever|].
    intros g tape Hsegs Hat. unfold consume_food.
    unfold snake_head_pos, food in Hat. inversion Hat as [[Hx Hy]].
    rewrite !Z.eqb_refl, Hsegs, Hnever. reflexivity.
  - intros Hfree missed Hmissed.
    destruct (covers_grid_false segs Hfree) as (raw_x & raw_y & Hoff).
    exists raw_x, raw_y. split; [now apply is_on_snake_false|].
    intros tape. rewrite respawn_food_after_misses by assumption.
    simpl. now rewrite Hoff.
Qed.

Lemma respawn_food_ends_iff_cell_free_witness :
  (forall tape, respawn_food tape serpentine_snake = None)
  /\ exists raw_x raw_y,
       ~ In (draw_food_x raw_x, draw_food_y raw_y) [(420, 300)]
       /\ forall tape,
            respawn_food (raw_pairs [(21, 15); (61, 45)]
                          ++ raw_x :: raw_y :: tape) [(420, 300)]
            = Some (draw_food_x raw_x, draw_food_y raw_y, tape).
Proof.
  split.
  - apply (proj1 (respawn_food_ends_iff_cell_free serpentine_snake)).
    vm_compute. reflexivity.
  - apply (proj2 (respawn_food_ends_iff_cell_free [(420, 300)])).
    + vm_compute. reflexivity.
    + reflexivity.
Defined.

(** ** Replay (C9) *)






(** ** The program only shows games of sessions *)

Lemma game_over_frame_stays (max_depth depth : nat) (events : list Event) :
  forall g g' depth',
    game_over_frame max_depth depth events g = (GameOver g', depth') ->
    g' = g /\ quit_game_app g = false /\ depth' = depth.
Proof.
  induction events as [|event events IH]; intros g g' depth'; simpl.
  - destruct (quit_game_app g) eqn:Hquit; intros E; inversion E; auto.
  - destruct event as [| key |].
    + intros E. apply IH in E as (_ & E & _). discriminate E.
    + destruct key; try apply IH.
      * intros E. apply IH in E as (_ & E & _). discriminate E.
      * unfold nested_game_loop.
        destruct (depth <? max_depth)%nat; discriminate.
    + apply IH.
Qed.

Lemma game_over_frame_not_playing (max_depth depth : nat)
      (events : list Event) :
  forall g g' depth',
    game_over_frame max_depth depth events g <> (Playing g', depth').
Proof.
  induction events as [|event events IH]; intros g g' depth'; simpl.
  - destruct (quit_game_app g); discriminate.
  - destruct event as [| key |]; try apply IH.
    destruct key; try apply IH.
    unfold nested_game_loop. destruct (depth <? max_depth)%nat; discriminate.
Qed.

Lemma step_in_session max_depth p events tape p' tape' :
  phase_in_session (fst p) ->
  step max_depth p events tape = Some (p', tape') ->
  phase_in_session (fst p').
Proof.
  destruct p as [screen depth]. unfold step; cbn [fst snd].
  destruct screen as [| g | g | |].
  - intros _. unfold intro_frame; cbv zeta.
    destruct (snd _); [intros E; inversion E; exact I|].
    destruct (fst _); [intros E; inversion E; exact I|].
    destruct (gameplay_init tape) as [[g t]|] eqn:Hinit; [|discriminate].
    intros E; inversion E; subst. simpl. split.
    + eapply session_start; eassumption.
    + unfold gameplay_init in Hinit; cbv zeta in Hinit.
      destruct (initial_food tape _ _) as [[[fx fy] t']|]; [|discriminate].
      inversion Hinit; reflexivity.
  - intros [Hsession Hrun].
    destruct (tick events g tape) as [[g' t]|] eqn:Htick; [|discriminate].
    intros E; inversion E; subst. cbn [fst].
    assert (Hnext : session_state g') by (eapply session_tick; eassumption).
    unfold after_tick. destruct (running g') eqn:Hrun'; simpl; auto.
    destruct (game_is_over g' && negb (quit_game_app g')) eqn:Hover;
      simpl; auto.
    apply andb_true_iff in Hover as [_ Hquit].
    apply negb_true_iff in Hquit. auto.
  - intros [Hsession Hquit] E; inversion E; subst.
    destruct (game_over_frame max_depth depth events g)
      as [[| g' | g' | |] depth'] eqn:Hframe; simpl; auto.
    + (* the gameplay loop is not re-entered from this screen *)
      exfalso. exact (game_over_frame_not_playing _ _ _ _ _ _ Hframe).
    + apply game_over_frame_stays in Hframe as (-> & _ & _). auto.
  - intros _ E; inversion E; exact I.
  - intros _ E; inversion E; exact I.
Qed.

Lemma run_in_session max_depth frames :
  forall p tape p' tape',
    phase_in_session (fst p) ->
    run max_depth frames p tape = Some (p', tape') ->
    phase_in_session (fst p').
Proof.
  induction frames as [|events frames IH]; intros p tape p' tape' Hp; simpl.
  - intros E; inversion E; subst. assumption.
  - destruct (step max_depth p events tape) as [[p1 t1]|] eqn:Hstep;
      [|discriminate].
    apply IH. eapply step_in_session; eassumption.
Qed.

(** Every game the program shows, started from the intro screen, is a
    state of a session. *)
Lemma run_reaches_session_state max_depth frames tape g depth tape' :
  game_loop max_depth frames tape = Some (Playing g, depth, tape')
  \/ game_loop max_depth frames tape = Some (GameOver g, depth, tape') ->
  session_state g.
Proof.
  unfold game_loop.
  intros [Hrun | Hrun];
    apply (run_in_session max_depth frames (Intro, 1%nat) tape _ tape' I)
      in Hrun;
    apply Hrun.
Qed.

(** * Further properties of the code *)

(** ** The shape of the snake *)

Lemma trim_app_last (len : Z) (segs : list Segment) (h : Segment) :
  1 <= len ->
  exists body,
    trim len (segs ++ [h]) = body ++ [h] /\ (body = segs \/ body = tl segs).
Proof.
  intros Hlen. unfold trim.
  destruct (Z.of_nat (length (segs ++ [h])) >? len) eqn:Hgt.
  - destruct segs as [|s segs]; simpl in *.
    + apply Z.gtb_lt in Hgt. lia.
    + exists segs. auto.
  - exists segs. auto.
Qed.

Lemma contiguous_tl (segs : list Segment) :
  contiguous segs -> contiguous (tl segs).
Proof.
  destruct segs as [|a [|b rest]]; simpl; trivial. now intros [_ H].
Qed.

Lemma contiguous_snoc (body : list Segment) (l h : Segment) :
  contiguous (body ++ [l]) -> adjacent l h -> contiguous ((body ++ [l]) ++ [h]).
Proof.
  intros Hbody Hadj. induction body as [|a body IH]; simpl in *.
  - auto.
  - destruct body as [|b body]; simpl in *.
    + destruct Hbody as [Hab _]. auto.
    + destruct Hbody as [Hab Hrest]. split; [assumption|]. now apply IH.
Qed.

Lemma no_self_collision_distinct (len : Z) (body : list Segment) (h : Segment) :
  NoDup body ->
  self_collision len (body ++ [h]) h = false ->
  len > 1 \/ body = [] ->
  NoDup (body ++ [h]).
Proof.
  intros Hbody Hself [Hlen | ->]; [|repeat constructor; auto].
  unfold self_collision in Hself. rewrite removelast_last in Hself.
  apply andb_false_iff in Hself as [Hself | Hself].
  - destruct (Z.gtb_spec len 1); [discriminate | lia].
  - assert (Hnotin : ~ In h body).
    { intros Hin.
      assert (Hex : existsb (fun segment => segment_eqb segment h) body = true).
      { apply existsb_exists. exists h. split; [assumption|].
        now apply segment_eqb_eq. }
      congruence. }
    clear Hself. induction body as [|a body IH]; simpl.
    + repeat constructor; auto.
    + inversion Hbody; subst. constructor.
      * intros Hin. apply in_app_or in Hin as [Hin | [-> | []]]; auto.
        apply Hnotin. now left.
      * apply IH; auto. intros Hin. apply Hnotin. now right.
Qed.

Lemma grid_cells_aligned_on_screen (c : Segment) :
  In c grid_cells -> aligned c /\ on_screen c.
Proof.
  intros Hin. apply grid_cells_drawn in Hin as (raw_x & raw_y & ->).
  split; [|apply draw_food_on_screen].
  unfold aligned, draw_food_x, draw_food_y; simpl.
  now rewrite !Z.mod_mul by (unfold SNAKE_BLOCK_SIZE; lia).
Qed.

Lemma aligned_on_screen_in_grid (c : Segment) :
  aligned c -> on_screen c -> In c grid_cells.
Proof.
  destruct c as [x y]. unfold aligned, on_screen; cbn [fst snd].
  unfold SNAKE_BLOCK_SIZE, SCREEN_WIDTH, SCREEN_HEIGHT.
  intros [Hx Hy] [Hxs Hys].
  apply Z.mod_divide in Hx as [i ->]; [|lia].
  apply Z.mod_divide in Hy as [j ->]; [|lia].
  apply (grid_cells_In i j); lia.
Qed.

Lemma respawn_food_drawn (tape : Tape) (segs : list Segment) :
  forall fx fy tape',
    respawn_food tape segs = Some (fx, fy, tape') ->
    exists raw_x raw_y, (fx, fy) = (draw_food_x raw_x, draw_food_y raw_y).
Proof.
  induction tape as [|raw|raw_x raw_y tape IH] using tape_pairs_ind;
    intros fx fy tape'; simpl; try discriminate.
  destruct (is_on_snake segs (draw_food_x raw_x) (draw_food_y raw_y)).
  - apply IH.
  - intros E; inversion E; subst. eauto.
Qed.

Lemma respawn_food_in_grid (tape : Tape) (segs : list Segment) :
  forall fx fy tape',
    respawn_food tape segs = Some (fx, fy, tape') -> In (fx, fy) grid_cells.
Proof.
  intros fx fy tape' Hspawn.
  apply respawn_food_drawn in Hspawn as (raw_x & raw_y & ->).
  apply draw_food_in_grid.
Qed.

Lemma initial_food_drawn (tape : Tape) (sx sy : Z) :
  forall fx fy tape',
    initial_food tape sx sy = Some (fx, fy, tape') ->
    exists raw_x raw_y, (fx, fy) = (draw_food_x raw_x, draw_food_y raw_y).
Proof.
  induction tape as [|raw|raw_x raw_y tape IH] using tape_pairs_ind;
    intros fx fy tape'; simpl; try discriminate.
  destruct ((draw_food_x raw_x =? sx) && (draw_food_y raw_y =? sy)).
  - apply IH.
  - intros E; inversion E; subst. eauto.
Qed.

Lemma initial_food_in_grid (tape : Tape) (sx sy : Z) :
  forall fx fy tape',
    initial_food tape sx sy = Some (fx, fy, tape') -> In (fx, fy) grid_cells.
Proof.
  intros fx fy tape' Hinit.
  apply initial_food_drawn in Hinit as (raw_x & raw_y & ->).
  apply draw_food_in_grid.
Qed.

(** The head after a frame: one block from where it was, in the direction
    the events of the frame have left. *)
Lemma advance_head_step events g :
  snake_head_pos (advance events g)
  = (snake_x g + snake_x_change (process_events events g),
     snake_y g + snake_y_change (process_events events g)).
Proof.
  rewrite advance_head.
  destruct (process_events_frame events g) as (dx & dy & key & quit & ->).
  reflexivity.
Qed.

Lemma advance_adjacent events g :
  direction_consistent g ->
  adjacent (snake_head_pos g) (snake_head_pos (advance events g)).
Proof.
  intros Hdir. apply (process_events_direction events) in Hdir.
  rewrite advance_head_step.
  destruct Hdir as [Harrow Hvel]. unfold velocity in Hvel.
  unfold adjacent, snake_head_pos.
  destruct (last_key_pressed (process_events events g));
    try discriminate; simpl in Hvel; inversion Hvel as [[Hdx Hdy]];
    rewrite Hdx, Hdy; cbn [fst snd]; unfold SNAKE_BLOCK_SIZE; lia.
Qed.

Lemma adjacent_aligned (a b : Segment) :
  adjacent a b -> aligned a -> aligned b.
Proof.
  unfold adjacent, aligned. intros Hadj [Hx Hy].
  assert (Hshift : forall v, v mod SNAKE_BLOCK_SIZE = 0 ->
                             (v + SNAKE_BLOCK_SIZE) mod SNAKE_BLOCK_SIZE = 0
                             /\ (v - SNAKE_BLOCK_SIZE) mod SNAKE_BLOCK_SIZE = 0).
  { intros v Hv. unfold SNAKE_BLOCK_SIZE in *.
    apply Z.mod_divide in Hv as [k ->]; [|lia]. split.
    - replace (k * 20 + 20) with ((k + 1) * 20) by lia.
      apply Z.mod_mul. lia.
    - replace (k * 20 - 20) with ((k - 1) * 20) by lia.
      apply Z.mod_mul. lia. }
  destruct (Hshift _ Hx) as [Hx1 Hx2]. destruct (Hshift _ Hy) as [Hy1 Hy2].
  destruct Hadj as [[-> [-> | ->]] | [-> [-> | ->]]]; auto.
Qed.

Lemma moved_fields events g :
  snake_current_length (move_head (process_events events g))
  = snake_current_length g
  /\ snake_segments (move_head (process_events events g)) = snake_segments g
  /\ game_is_over (move_head (process_events events g)) = game_is_over g.
Proof.
  destruct (process_events_frame events g) as (dx & dy & key & quit & ->).
  auto.
Qed.

Lemma advance_shape events g :
  session_invariant g ->
  snake_shape g ->
  direction_consistent g ->
  snake_shape (advance events g).
Proof.
  intros Hinv Hshape Hdir.
  destruct (advance_frame events g) as (Hlen & _ & Hfood & Hsegs).
  pose proof (advance_adjacent events g Hdir) as Hadj.
  destruct (shape_aligned g Hshape) as (Hah & Haf & Has).
  pose proof (adjacent_aligned _ _ Hadj Hah) as Hah'.
  destruct (trim_app_last (snake_current_length g) (snake_segments g)
              (snake_head_pos (advance events g)) (inv_length g Hinv))
    as (body & Htrim & Hbody).
  rewrite Htrim in Hsegs.
  assert (Hcont : contiguous (snake_segments g
                              ++ [snake_head_pos (advance events g)])).
  { destruct (shape_head g Hshape) as [Hnil | [b Hb]].
    - rewrite Hnil. simpl. trivial.
    - pose proof (shape_contiguous g Hshape) as Hc. rewrite Hb in *.
      now apply contiguous_snoc. }
  constructor.
  - right. exists body. assumption.
  - rewrite Hsegs. destruct Hbody as [-> | ->]; [assumption|].
    destruct (snake_segments g) as [|s rest]; [assumption|].
    now apply (contiguous_tl ((s :: rest) ++ [_])).
  - rewrite Hfood. split; [exact Hah'|]. split; [exact Haf|].
    intros c Hin. rewrite Hsegs in Hin.
    apply in_app_or in Hin as [Hin | [<- | []]]; [|assumption].
    apply Has. destruct Hbody as [-> | ->]; [assumption|].
    destruct (snake_segments g); [destruct Hin | now right].
  - intros Hover. rewrite Hsegs.
    pose proof (advance_game_is_over events g) as Hflag. cbv zeta in Hflag.
    rewrite Hflag in Hover; clear Hflag.
    destruct (moved_fields events g) as (Hmlen & Hmsegs & Hmover).
    rewrite <- advance_head, Hmlen, Hmsegs, Hmover, Htrim in Hover.
    apply orb_false_iff in Hover as [Hover Hself].
    apply orb_false_iff in Hover as [Hover0 _].
    assert (Hnodup : NoDup body).
    { pose proof (shape_distinct g Hshape Hover0) as Hnd.
      destruct Hbody as [-> | ->]; [assumption|].
      destruct (snake_segments g); [constructor | now inversion Hnd]. }
    apply (no_self_collision_distinct (snake_current_length g)); trivial.
    destruct (Z.gtb_spec (snake_current_length g) 1); [left; lia | right].
    pose proof (inv_length g Hinv).
    pose proof (trim_length (snake_current_length g) (snake_segments g)
                  (snake_head_pos (advance events g)) (inv_cells g Hinv)) as Hl.
    rewrite Htrim, length_app in Hl. simpl in Hl.
    destruct body; [reflexivity | simpl in Hl; lia].
Qed.

Lemma tick_shape events g tape g' tape' :
  session_invariant g ->
  snake_shape g ->
  direction_consistent g ->
  tick events g tape = Some (g', tape') ->
  snake_shape g'.
Proof.
  intros Hinv Hshape Hdir. unfold tick; cbv zeta.
  pose proof (advance_shape events g Hinv Hshape Hdir) as Hadv.
  destruct (game_is_over (advance events g)).
  - intros E; inversion E; subst. assumption.
  - intros Heat. apply consume_food_cases in Heat
      as [(_ & -> & _) | (_ & fx & fy & Hspawn & ->)]; [assumption|].
    apply respawn_food_in_grid, grid_cells_aligned_on_screen in Hspawn
      as [Hal _].
    destruct Hadv as [Hh Hc [Hah [_ Has]] Hd].
    constructor; unfold eat, snake_head_pos, food in *; game_fields; auto.
Qed.

Lemma session_state_shape g : session_state g -> snake_shape g.
Proof.
  induction 1 as [tape g tape' Hinit | g events tape g' tape' Hs IH _ Htick].
  - unfold gameplay_init in Hinit; cbv zeta in Hinit.
    destruct (initial_food tape _ _) as [[[fx fy] t]|] eqn:Hfood;
      [|discriminate].
    inversion Hinit; subst; clear Hinit.
    apply initial_food_in_grid, grid_cells_aligned_on_screen in Hfood
      as [Hal _].
    constructor; unfold snake_head_pos, food; simpl; auto.
    + split; [now split|]. split; [exact Hal|]. contradiction.
    + constructor.
  - eapply tick_shape; try eassumption.
    + now apply session_state_invariant.
    + now apply session_state_direction.
Qed.

Lemma turning_snake_session_state : session_state turning_snake.
Proof.
  apply (run_reaches_session_state 1000 turning_frames turning_tape
                                   turning_snake 1 []).
  left. reflexivity.
Qed.

(** X2: in every session the snake is a path of cells: once it has a
    segment, its last segment is the head, and every segment is the
    neighbour (one block up, down, left or right) of the one before it. *)
Theorem snake_is_a_path_ending_at_head (g : Game) :
  session_state g ->
  (snake_segments g = []
   \/ exists body, snake_segments g = body ++ [snake_head_pos g])
  /\ contiguous (snake_segments g).
Proof.
  intros Hsession. apply session_state_shape in Hsession as Hshape.
  split; [apply (shape_head g Hshape) | apply (shape_contiguous g Hshape)].
Qed.

Lemma snake_is_a_path_ending_at_head_witness :
  (snake_segments turning_snake = []
   \/ exists body,
        snake_segments turning_snake = body ++ [snake_head_pos turning_snake])
  /\ contiguous (snake_segments turning_snake).
Proof.
  apply (snake_is_a_path_ending_at_head turning_snake).
  exact turning_snake_session_state.
Defined.

(** X3: while a game has not been lost, no two segments of the snake are
    on the same cell. *)
Theorem running_snake_never_overlaps (g : Game) :
  session_state g ->
  game_is_over g = false ->
  NoDup (snake_segments g).
Proof.
  intros Hsession. apply session_state_shape in Hsession as Hshape.
  apply (shape_distinct g Hshape).
Qed.

Lemma running_snake_never_overlaps_witness :
  NoDup (snake_segments turning_snake).
Proof.
  apply (running_snake_never_overlaps turning_snake).
  - exact turning_snake_session_state.
  - reflexivity.
Defined.

Lemma session_head_on_screen (g : Game) :
  session_state g -> game_is_over g = false -> on_screen (snake_head_pos g).
Proof.
  intros Hsession Hplay.
  destruct Hsession as [tape g tape' Hinit | g events tape g' tape' _ _ Htick].
  - unfold gameplay_init in Hinit; cbv zeta in Hinit.
    destruct (initial_food tape _ _) as [[[fx fy] t]|]; [|discriminate].
    inversion Hinit; subst. unfold on_screen, snake_head_pos; simpl.
    unfold SCREEN_WIDTH, SCREEN_HEIGHT. lia.
  - unfold tick in Htick; cbv zeta in Htick.
    destruct (game_is_over (advance events g)) eqn:Hover.
    + inversion Htick; subst. congruence.
    + apply consume_food_cases in Htick
        as [(_ & -> & _) | (_ & fx & fy & _ & ->)];
        now apply advance_head_on_screen.
Qed.

(** X4: in every session the head and the food are on the grid of 20-pixel
    blocks, the food on one of the 40 x 30 cells of the screen; while the
    game has not been lost, so are the head and every segment. *)
Theorem session_stays_on_the_grid (g : Game) :
  session_state g ->
  aligned (snake_head_pos g)
  /\ In (food g) grid_cells
  /\ (game_is_over g = false ->
      In (snake_head_pos g) grid_cells
      /\ forall c, In c (snake_segments g) -> In c grid_cells).
Proof.
  intros Hsession. apply session_state_shape in Hsession as Hshape.
  apply session_state_invariant in Hsession as Hinv.
  destruct (shape_aligned g Hshape) as (Hah & Haf & Has).
  split; [assumption|]. split.
  - apply aligned_on_screen_in_grid; [assumption|].
    apply (inv_food_screen g Hinv).
  - intros Hplay. split.
    + apply aligned_on_screen_in_grid; [assumption|].
      now apply session_head_on_screen.
    + intros c Hin. apply aligned_on_screen_in_grid; [now apply Has|].
      now apply (inv_on_screen g Hinv).
Qed.

Lemma session_stays_on_the_grid_witness :
  aligned (snake_head_pos turning_snake)
  /\ In (food turning_snake) grid_cells
  /\ (game_is_over turning_snake = false ->
      In (snake_head_pos turning_snake) grid_cells
      /\ forall c, In c (snake_segments turning_snake) -> In c grid_cells).
Proof.
  apply (session_stays_on_the_grid turning_snake).
  exact turning_snake_session_state.
Defined.

(** X5: a frame moves the snake one cell: the new head is the old head
    plus the change of position the events of the frame have left, a
    neighbour of the old head; the oldest segment is dropped, except on the
    first frame of a session and on the frame after a meal, when the list
    is one short of [snake_current_length] and only grows. *)
Theorem frame_shifts_the_snake (g : Game) (events : list Event) :
  session_state g ->
  snake_head_pos (advance events g)
  = (snake_x g + snake_x_change (process_events events g),
     snake_y g + snake_y_change (process_events events g))
  /\ adjacent (snake_head_pos g) (snake_head_pos (advance events g))
  /\ (Z.of_nat (length (snake_segments g)) = snake_current_length g ->
      snake_segments (advance events g)
      = tl (snake_segments g) ++ [snake_head_pos (advance events g)])
  /\ (Z.of_nat (length (snake_segments g)) = snake_current_length g - 1 ->
      snake_segments (advance events g)
      = snake_segments g ++ [snake_head_pos (advance events g)]).
Proof.
  intros Hsession. apply session_state_invariant in Hsession as Hinv.
  apply session_state_direction in Hsession as Hdir.
  destruct (advance_frame events g) as (_ & _ & _ & Hsegs).
  pose proof (inv_length g Hinv) as Hlen.
  split; [apply advance_head_step|]. split; [now apply advance_adjacent|].
  rewrite Hsegs. unfold trim. rewrite length_app. simpl.
  split; intros Hcells.
  - destruct (Z.gtb_spec (Z.of_nat (length (snake_segments g) + 1))
                         (snake_current_length g)); [|lia].
    destruct (snake_segments g); [simpl in Hcells; lia | reflexivity].
  - destruct (Z.gtb_spec (Z.of_nat (length (snake_segments g) + 1))
                         (snake_current_length g)); [lia | reflexivity].
Qed.

Lemma frame_shifts_the_snake_witness :
  snake_head_pos (advance [KEYDOWN K_LEFT] turning_snake)
  = (snake_x turning_snake
     + snake_x_change (process_events [KEYDOWN K_LEFT] turning_snake),
     snake_y turning_snake
     + snake_y_change (process_events [KEYDOWN K_LEFT] turning_snake))
  /\ adjacent (snake_head_pos turning_snake)
              (snake_head_pos (advance [KEYDOWN K_LEFT] turning_snake))
  /\ (Z.of_nat (length (snake_segments turning_snake))
      = snake_current_length turning_snake ->
      snake_segments (advance [KEYDOWN K_LEFT] turning_snake)
      = tl (snake_segments turning_snake)
        ++ [snake_head_pos (advance [KEYDOWN K_LEFT] turning_snake)])
  /\ (Z.of_nat (length (snake_segments turning_snake))
      = snake_current_length turning_snake - 1 ->
      snake_segments (advance [KEYDOWN K_LEFT] turning_snake)
      = snake_segments turning_snake
        ++ [snake_head_pos (advance [KEYDOWN K_LEFT] turning_snake)]).
Proof.
  apply (frame_shifts_the_snake turning_snake [KEYDOWN K_LEFT]).
  exact turning_snake_session_state.
Defined.

(** ** How long a snake can get *)

Lemma grid_cells_length : length grid_cells = 1200%nat.
Proof. vm_compute. reflexivity. Qed.

Lemma full_snake_covers_grid (segs : list Segment) :
  NoDup segs ->
  (forall c, In c segs -> In c grid_cells) ->
  (1200 <= length segs)%nat ->
  covers_grid segs = true.
Proof.
  intros Hnodup Hin Hlen. unfold covers_grid. apply forallb_forall.
  intros [x y] Hcell. apply is_on_snake_In.
  assert (Hall : incl grid_cells segs).
  { apply NoDup_length_incl; [assumption | | exact Hin].
    rewrite grid_cells_length. exact Hlen. }
  now apply Hall.
Qed.

Lemma advance_segments_in_grid events g :
  session_state g ->
  game_is_over g = false ->
  game_is_over (advance events g) = false ->
  NoDup (snake_segments (advance events g))
  /\ forall c, In c (snake_segments (advance events g)) -> In c grid_cells.
Proof.
  intros Hsession Hplay Hover.
  apply session_state_invariant in Hsession as Hinv.
  apply session_state_direction in Hsession as Hdir.
  apply session_state_shape in Hsession as Hshape.
  pose proof (advance_shape events g Hinv Hshape Hdir) as Hadv.
  split; [now apply (shape_distinct _ Hadv)|].
  intros c Hin. apply aligned_on_screen_in_grid.
  - now apply (shape_aligned _ Hadv).
  - destruct (advance_frame events g) as (_ & _ & _ & Hsegs).
    rewrite Hsegs in Hin. apply trim_incl, in_app_or in Hin.
    destruct Hin as [Hin | [<- | []]].
    + now apply (inv_on_screen g Hinv).
    + now apply advance_head_on_screen.
Qed.

Lemma session_length_bound g :
  session_state g -> snake_current_length g <= 1200.
Proof.
  induction 1 as [tape g tape' Hinit | g events tape g' tape' Hs IH Hrun Htick].
  - unfold gameplay_init in Hinit; cbv zeta in Hinit.
    destruct (initial_food tape _ _) as [[[fx fy] t]|]; [|discriminate].
    inversion Hinit; subst. simpl. lia.
  - apply andb_true_iff in Hrun as [Hplay _]. apply negb_true_iff in Hplay.
    destruct (advance_frame events g) as (Hlen & _ & _ & Hsegs).
    unfold tick in Htick; cbv zeta in Htick.
    destruct (game_is_over (advance events g)) eqn:Hover.
    + inversion Htick; subst. lia.
    + apply consume_food_cases in Htick
        as [(_ & -> & _) | (_ & fx & fy & Hspawn & ->)]; [lia|].
      unfold eat; game_fields. rewrite Hlen.
      enough (snake_current_length g < 1200) by lia.
      destruct (Z.lt_ge_cases (snake_current_length g) 1200) as [|Hfull];
        [assumption | exfalso].
      destruct (advance_segments_in_grid events g Hs Hplay Hover)
        as [Hnodup Hgrid].
      assert (Hcover : covers_grid (snake_segments (advance events g)) = true).
      { apply full_snake_covers_grid; trivial.
        pose proof (trim_length (snake_current_length g) (snake_segments g)
                      (snake_head_pos (advance events g))
                      (inv_cells g (session_state_invariant g Hs))) as Hl.
        rewrite <- Hsegs in Hl. lia. }
      rewrite (respawn_food_all_on_snake _ (covers_grid_true _ Hcover))
        in Hspawn.
      discriminate.
Qed.

(** X6: in every session the snake is at most 1200 long (the number of
    cells of the screen) and the score at most 11990: the meal that would
    take the snake past the screen's size never completes. *)
Theorem snake_length_and_score_are_bounded (g : Game) :
  session_state g ->
  snake_current_length g <= 1200
  /\ current_player_score g <= 11990
  /\ (length (snake_segments g) <= 1200)%nat.
Proof.
  intros Hsession. apply session_state_invariant in Hsession as Hinv.
  pose proof (session_length_bound g Hsession) as Hlen.
  pose proof (inv_score g Hinv). pose proof (inv_cells g Hinv).
  repeat split; lia.
Qed.

Lemma snake_length_and_score_are_bounded_witness :
  snake_current_length turning_snake <= 1200
  /\ current_player_score turning_snake <= 11990
  /\ (length (snake_segments turning_snake) <= 1200)%nat.
Proof.
  apply (snake_length_and_score_are_bounded turning_snake).
  exact turning_snake_session_state.
Defined.

(** ** A snake left alone *)

Lemma tick_keeps_direction events g tape g' tape' :
  tick events g tape = Some (g', tape') ->
  snake_head_pos g' = snake_head_pos (advance events g)
  /\ last_key_pressed g' = last_key_pressed (process_events events g)
  /\ quit_game_app g' = quit_game_app (process_events events g)
  /\ game_is_over g' = game_is_over (advance events g).
Proof.
  unfold tick; cbv zeta.
  assert (Hquit : quit_game_app (advance events g)
                  = quit_game_app (process_events events g)).
  { unfold advance; cbv zeta.
    generalize (process_events events g) as m. intros m.
    unfold move_head, hits_wall, hits_self, settle.
    repeat match goal with
           | |- context [if ?c then _ else _] => destruct c; simpl
           end; reflexivity. }
  destruct (advance_direction events g) as [Hkey _].
  destruct (game_is_over (advance events g)) eqn:Hover.
  - intros E; inversion E; subst. auto.
  - intros Heat. apply consume_food_cases in Heat
      as [(_ & -> & _) | (_ & fx & fy & _ & ->)]; auto.
Qed.

Lemma room_ahead_on_screen (g : Game) :
  session_state g -> game_is_over g = false -> 0 <= room_ahead g < 800.
Proof.
  intros Hsession Hplay.
  pose proof (session_head_on_screen g Hsession Hplay) as [Hx Hy].
  unfold snake_head_pos in Hx, Hy; simpl in Hx, Hy.
  unfold room_ahead, SCREEN_WIDTH, SCREEN_HEIGHT in *.
  destruct (last_key_pressed g); lia.
Qed.

Lemma idle_step g tape g' tape' :
  session_state g ->
  tick [] g tape = Some (g', tape') ->
  room_ahead g' = room_ahead g - 20
  /\ quit_game_app g' = quit_game_app g.
Proof.
  intros Hsession Htick.
  destruct (session_state_direction g Hsession) as [Harrow Hvel].
  apply tick_keeps_direction in Htick as (Hhead & Hkey & Hquit & _).
  rewrite advance_head_step in Hhead. simpl in Hhead, Hkey, Hquit.
  split; [|assumption].
  unfold snake_head_pos in Hhead. inversion Hhead as [[Hx Hy]].
  unfold room_ahead. rewrite Hkey, Hx, Hy.
  unfold velocity in Hvel.
  destruct (last_key_pressed g); try discriminate; simpl in Hvel;
    inversion Hvel as [[Hdx Hdy]]; rewrite ?Hdx, ?Hdy;
    unfold SNAKE_BLOCK_SIZE; lia.
Qed.

Lemma idle_frames_end (n : nat) :
  forall g tape g' tape',
    session_state g ->
    (running g = true -> room_ahead g < 20 * Z.of_nat n) ->
    idle_frames n g tape = Some (g', tape') ->
    running g' = false /\ quit_game_app g' = quit_game_app g.
Proof.
  induction n as [|n IH]; intros g tape g' tape' Hsession Hroom.
  - simpl. intros E; inversion E; subst. split; [|reflexivity].
    destruct (running g') eqn:Hrun; [exfalso | reflexivity].
    specialize (Hroom eq_refl).
    apply andb_true_iff in Hrun as [Hplay _]. apply negb_true_iff in Hplay.
    pose proof (room_ahead_on_screen g' Hsession Hplay). lia.
  - cbn [idle_frames]. destruct (running g) eqn:Hrun.
    + destruct (tick [] g tape) as [[g1 tape1]|] eqn:Htick; [|discriminate].
      intros Hidle.
      destruct (idle_step g tape g1 tape1 Hsession Htick) as [Hless Hquit].
      rewrite <- Hquit. apply (IH g1 tape1 g' tape'); trivial.
      * eapply session_tick; eassumption.
      * intros _. specialize (Hroom eq_refl). lia.
    + intros E; inversion E; subst. auto.
Qed.

(** X7: a snake left alone runs into a wall.  From any state of a session,
    after at most 40 frames without events the gameplay loop has stopped:
    the game is lost, unless the window had been closed before. *)
Theorem idle_game_ends_within_40_frames
        (g : Game) (tape : Tape) (g' : Game) (tape' : Tape) :
  session_state g ->
  idle_frames 40 g tape = Some (g', tape') ->
  running g' = false
  /\ (quit_game_app g = false -> game_is_over g' = true).
Proof.
  intros Hsession Hidle.
  apply idle_frames_end in Hidle as [Hstop Hquit]; trivial.
  - split; [assumption|]. intros Hq. rewrite Hq in Hquit.
    unfold running in Hstop. rewrite Hquit in Hstop. simpl in Hstop.
    rewrite andb_true_r in Hstop. now apply negb_false_iff in Hstop.
  - intros Hrun.
    apply andb_true_iff in Hrun as [Hplay _]. apply negb_true_iff in Hplay.
    pose proof (room_ahead_on_screen g Hsession Hplay). lia.
Qed.

Lemma idle_game_ends_within_40_frames_witness :
  exists g' tape',
    idle_frames 40 turning_snake [] = Some (g', tape')
    /\ running g' = false
    /\ (quit_game_app turning_snake = false -> game_is_over g' = true).
Proof.
  eexists. eexists. split; [vm_compute; reflexivity|].
  apply (idle_game_ends_within_40_frames turning_snake [] _ []).
  - exact turning_snake_session_state.
  - vm_compute. reflexivity.
Defined.

(** ** What the three screens react to *)




Lemma process_events_quit (events : list Event) :
  forall g,
    quit_game_app (process_events events g)
    = quit_game_app g || existsb is_window_close events.
Proof.
  unfold process_events.
  induction events as [|event events IH]; intros g; simpl.
  - now rewrite orb_false_r.
  - rewrite IH, orb_assoc. f_equal.
    destruct event as [| key |]; simpl.
    + now rewrite orb_true_r.
    + rewrite orb_false_r. destruct key, (last_key_pressed g); reflexivity.
    + now rewrite orb_false_r.
Qed.

(** X10: during play only a window close ends the program, and it does so
    after the frame has run (the snake still moves): once a frame holds
    one, the program ends without showing the game-over screen, even if
    the snake dies in that frame; otherwise the game-over screen follows a
    loss and play goes on without one.  A Q key press is not a quit
    request here. *)
Theorem window_close_ends_program_after_frame
        (events : list Event) (g : Game) (tape : Tape)
        (g' : Game) (tape' : Tape) :
  tick events g tape = Some (g', tape') ->
  quit_game_app g = false ->
  snake_head_pos g' = snake_head_pos (advance events g)
  /\ quit_game_app g' = existsb is_window_close events
  /\ after_tick g'
     = if existsb is_window_close events then Terminated
       else if game_is_over g' then GameOver g' else Playing g'.
Proof.
  intros Htick Hquit.
  apply tick_keeps_direction in Htick as (Hhead & _ & Hq & _).
  rewrite process_events_quit, Hquit in Hq. simpl in Hq.
  split; [assumption|]. split; [assumption|].
  unfold after_tick, running. rewrite Hq.
  destruct (existsb is_window_close events), (game_is_over g'); reflexivity.
Qed.

Lemma window_close_ends_program_after_frame_witness :
  snake_head_pos (advance [KEYDOWN K_q; QUIT] turning_snake)
  = snake_head_pos (advance [KEYDOWN K_q; QUIT] turning_snake)
  /\ quit_game_app (advance [KEYDOWN K_q; QUIT] turning_snake)
     = existsb is_window_close [KEYDOWN K_q; QUIT]
  /\ after_tick (advance [KEYDOWN K_q; QUIT] turning_snake)
     = if existsb is_window_close [KEYDOWN K_q; QUIT] then Terminated
       else if game_is_over (advance [KEYDOWN K_q; QUIT] turning_snake)
            then GameOver (advance [KEYDOWN K_q; QUIT] turning_snake)
            else Playing (advance [KEYDOWN K_q; QUIT] turning_snake).
Proof.
  apply (window_close_ends_program_after_frame
           [KEYDOWN K_q; QUIT] turning_snake [] _ []); reflexivity.
Defined.

(** X11: during play, events other than arrow key presses and window
    closes (Q, C, SPACE, other keys, other events) change nothing; and in a
    session, pressing the arrow key of the direction the snake already
    moves in changes nothing either. *)
Theorem inputs_that_change_nothing (g : Game) (events : list Event) :
  (forall event, In event events ->
                 is_steering event = false /\ is_window_close event = false) ->
  process_events events g = g
  /\ (session_state g ->
      handle_event g (KEYDOWN (last_key_pressed g)) = g).
Proof.
  intros Hquiet. split.
  - unfold process_events. revert g.
    induction events as [|event events IH]; intros g; simpl; [reflexivity|].
    assert (Hevent : handle_event g event = g).
    { destruct (Hquiet event (or_introl eq_refl)) as [Hsteer Hclose].
      destruct event as [| key |]; simpl in *; try discriminate;
        [|reflexivity].
      destruct key; simpl in *; try discriminate; reflexivity. }
    rewrite Hevent. apply IH. intros e He. apply Hquiet. now right.
  - intros Hsession.
    destruct (session_state_direction g Hsession) as [Harrow Hvel].
    destruct g as [x y dx dy key segs len score fx fy over quit].
    unfold velocity in Hvel; game_fields.
    destruct key; try discriminate; simpl in Hvel;
      inversion Hvel; subst; reflexivity.
Qed.

Lemma inputs_that_change_nothing_witness :
  process_events [KEYDOWN K_q; KEYDOWN K_c; KEYDOWN K_SPACE; OTHER_EVENT]
                 turning_snake
  = turning_snake
  /\ (session_state turning_snake ->
      handle_event turning_snake (KEYDOWN (last_key_pressed turning_snake))
      = turning_snake).
Proof.
  apply (inputs_that_change_nothing turning_snake
           [KEYDOWN K_q; KEYDOWN K_c; KEYDOWN K_SPACE; OTHER_EVENT]).
  intros event Hin. simpl in Hin.
  destruct Hin as [<- | [<- | [<- | [<- | []]]]]; split; reflexivity.
Defined.

(** ** What is drawn *)

Lemma session_food_in_grid (g : Game) :
  session_state g -> In (food g) grid_cells.
Proof.
  intros Hsession. apply aligned_on_screen_in_grid.
  - now destruct (shape_aligned g (session_state_shape g Hsession))
      as (_ & Hfood & _).
  - apply (inv_food_screen g (session_state_invariant g Hsession)).
Qed.

Lemma nth_error_enumerate (segs : list Segment) :
  forall start i c,
    nth_error segs i = Some c ->
    nth_error (combine (seq start (length segs)) segs) i
    = Some ((start + i)%nat, c).
Proof.
  induction segs as [|s segs IH]; intros start i c; destruct i; simpl;
    try discriminate.
  - intros E; inversion E; subst. now rewrite Nat.add_0_r.
  - intros Hi. rewrite (IH (S start) i c Hi). f_equal. f_equal. lia.
Qed.

Lemma nth_error_draw_rounds (size : Z) (n : nat) (entries : list (nat * Segment)) :
  forall i entry,
    nth_error entries i = Some entry ->
    nth_error (flat_map (draw_segment size n) entries) (i + i)
    = nth_error (draw_segment size n entry) 0
    /\ nth_error (flat_map (draw_segment size n) entries) (S (i + i))
       = nth_error (draw_segment size n entry) 1.
Proof.
  induction entries as [|e entries IH]; intros i entry; destruct i;
    try discriminate.
  - simpl. intros E; inversion E; subst. split; reflexivity.
  - intros Hi. rewrite Nat.add_succ_r.
    change (flat_map (draw_segment size n) (e :: entries))
      with (draw_segment size n e
            ++ flat_map (draw_segment size n) entries).
    unfold draw_segment at 1 3. cbv zeta. cbn [app nth_error].
    now apply IH.
Qed.

Lemma draw_rounds_length (size : Z) (n : nat) (segs : list Segment) :
  forall start,
    length (flat_map (draw_segment size n)
                     (combine (seq start (length segs)) segs))
    = (2 * length segs)%nat.
Proof.
  induction segs as [|s segs IH]; intros start; [reflexivity|].
  cbn [length seq combine flat_map app draw_segment].
  rewrite IH. lia.
Qed.

Lemma in_draw_snake (size : Z) (segs : list Segment) (d : Drawing) :
  In d (draw_snake size segs) ->
  exists c color,
    In c segs
    /\ (d = Rect BLACK (fst c) (snd c) size size
        \/ d = Rect color (fst c + 1) (snd c + 1) (size - 2) (size - 2)).
Proof.
  unfold draw_snake. intros Hin.
  apply in_flat_map in Hin as [[i c] [Hentry Hd]].
  apply in_combine_r in Hentry.
  unfold draw_segment in Hd; cbv zeta in Hd; cbn [fst snd] in Hd.
  destruct Hd as [<- | [<- | []]].
  - exists c, BLACK. auto.
  - eexists c, _. split; [assumption|]. right. reflexivity.
Qed.

(** X12: [draw_snake] draws two squares per segment, from the oldest
    segment to the head, so the head is drawn last, on top: a black square
    of the block size on the segment's cell, then inside it, one pixel in
    on every side, a coloured one: light green for the head, and for the
    others green at even positions from the tail and light green at odd
    ones. *)
Theorem draw_snake_squares
        (size : Z) (segs : list Segment) (i : nat) (c : Segment) :
  length (draw_snake size segs) = (2 * length segs)%nat
  /\ (nth_error segs i = Some c ->
      nth_error (draw_snake size segs) (2 * i)
      = Some (Rect BLACK (fst c) (snd c) size size)
      /\ nth_error (draw_snake size segs) (2 * i + 1)
         = Some (Rect (if (S i =? length segs)%nat then LIGHT_GREEN
                       else if Nat.even i then GREEN else LIGHT_GREEN)
                      (fst c + 1) (snd c + 1) (size - 2) (size - 2))).
Proof.
  split.
  - apply draw_rounds_length.
  - intros Hi.
    pose proof (nth_error_enumerate segs 0 i c Hi) as Hentry.
    apply (nth_error_draw_rounds size (length segs)) in Hentry
      as [Hborder Hinner].
    replace (2 * i)%nat with (i + i)%nat by lia.
    replace (i + i + 1)%nat with (S (i + i)) by lia.
    unfold draw_snake. rewrite Hborder, Hinner.
    unfold draw_segment; cbv zeta; cbn [fst snd nth_error Nat.add].
    split; [reflexivity|]. f_equal. f_equal.
    assert (Hlt : (i < length segs)%nat)
      by (apply nth_error_Some; congruence).
    destruct (Nat.eqb_spec (S i) (length segs)) as [Hlast | Hlast].
    + destruct (Z.eqb_spec (Z.of_nat i) (Z.of_nat (length segs) - 1));
        [reflexivity | lia].
    + destruct (Z.eqb_spec (Z.of_nat i) (Z.of_nat (length segs) - 1));
        [lia|].
      destruct (Nat.even i) eqn:Heven.
      * apply Nat.even_spec in Heven as [k ->].
        rewrite Nat2Z.inj_mul, Z.mul_comm, Z.mod_mul by lia. reflexivity.
      * rewrite <- Nat.negb_odd in Heven.
        apply negb_false_iff, Nat.odd_spec in Heven as [k ->].
        rewrite Nat2Z.inj_add, Nat2Z.inj_mul, Z.add_comm, Z.mul_comm,
          Z_mod_plus_full.
        reflexivity.
Qed.

Lemma draw_snake_squares_witness :
  length (draw_snake 20 [(420, 300); (440, 300); (440, 280)])
  = (2 * length [(420, 300); (440, 300); (440, 280)])%nat
  /\ (nth_error [(420, 300); (440, 300); (440, 280)] 2 = Some (440, 280) ->
      nth_error (draw_snake 20 [(420, 300); (440, 300); (440, 280)]) (2 * 2)
      = Some (Rect BLACK (fst (440, 280)) (snd (440, 280)) 20 20)
      /\ nth_error (draw_snake 20 [(420, 300); (440, 300); (440, 280)])
                   (2 * 2 + 1)
         = Some (Rect (if (3 =? length [(420, 300); (440, 300); (440, 280)])%nat
                       then LIGHT_GREEN
                       else if Nat.even 2 then GREEN else LIGHT_GREEN)
                      (fst (440, 280) + 1) (snd (440, 280) + 1)
                      (20 - 2) (20 - 2))).
Proof.
  apply (draw_snake_squares 20 [(420, 300); (440, 300); (440, 280)] 2
                            (440, 280)).
Defined.

Lemma grid_cell_fits_window (c : Segment) :
  In c grid_cells ->
  0 <= fst c /\ fst c + SNAKE_BLOCK_SIZE <= SCREEN_WIDTH
  /\ 0 <= snd c /\ snd c + SNAKE_BLOCK_SIZE <= SCREEN_HEIGHT.
Proof.
  intros Hin. apply grid_cells_drawn in Hin as (raw_x & raw_y & ->).
  unfold draw_food_x, draw_food_y, randrange. cbn [fst snd].
  replace (SCREEN_WIDTH / SNAKE_BLOCK_SIZE - 0) with 40 by reflexivity.
  replace (SCREEN_HEIGHT / SNAKE_BLOCK_SIZE - 0) with 30 by reflexivity.
  unfold SCREEN_WIDTH, SCREEN_HEIGHT, SNAKE_BLOCK_SIZE.
  pose proof (Z.mod_pos_bound raw_x 40 ltac:(lia)).
  pose proof (Z.mod_pos_bound raw_y 30 ltac:(lia)).
  lia.
Qed.

(** X13: everything a gameplay frame draws lies within the 800 x 600
    window: the food circle, and both squares of every segment of the
    snake.  (Nothing is drawn in the frame in which the game is lost.) *)
Theorem gameplay_drawing_stays_in_window (g : Game) (events : list Event) :
  session_state g ->
  running g = true ->
  game_is_over (advance events g) = false ->
  Forall in_window (gameplay_drawing (advance events g)).
Proof.
  intros Hsession Hrun Hover.
  apply andb_true_iff in Hrun as [Hplay _]. apply negb_true_iff in Hplay.
  destruct (advance_segments_in_grid events g Hsession Hplay Hover)
    as [_ Hgrid].
  destruct (advance_frame events g) as (_ & _ & Hfood & _).
  pose proof (session_food_in_grid g Hsession) as Hfg.
  rewrite <- Hfood in Hfg. apply grid_cell_fits_window in Hfg.
  unfold gameplay_drawing. apply Forall_forall. intros d Hin.
  apply in_app_or in Hin as [[<- | [<- | []]] | Hin].
  - exact I.
  - unfold draw_food, food in *; cbv zeta; cbn [in_window fst snd] in *.
    change (SNAKE_BLOCK_SIZE / 2) with 10.
    unfold SNAKE_BLOCK_SIZE in Hfg. lia.
  - apply in_app_or in Hin as [Hin | [<- | []]]; [|exact I].
    apply in_draw_snake in Hin as (c & color & Hc & Hd).
    apply Hgrid, grid_cell_fits_window in Hc.
    unfold SNAKE_BLOCK_SIZE in *.
    destruct Hd as [-> | ->]; cbn [in_window]; lia.
Qed.

Lemma gameplay_drawing_stays_in_window_witness :
  Forall in_window (gameplay_drawing (advance [KEYDOWN K_LEFT] turning_snake)).
Proof.
  apply (gameplay_drawing_stays_in_window turning_snake [KEYDOWN K_LEFT]).
  - exact turning_snake_session_state.
  - reflexivity.
  - reflexivity.
Defined.

(** ** Turning at most once per frame *)

Lemma handle_event_quiet (g : Game) (event : Event) :
  is_steering event = false ->
  last_key_pressed (handle_event g event) = last_key_pressed g.
Proof.
  destruct event as [| key |]; simpl; trivial.
  destruct key; simpl; try discriminate; reflexivity.
Qed.

Lemma process_events_quiet (events : list Event) :
  forall g,
    filter is_steering events = [] ->
    last_key_pressed (process_events events g) = last_key_pressed g.
Proof.
  unfold process_events.
  induction events as [|event events IH]; intros g; simpl; [reflexivity|].
  destruct (is_steering event) eqn:Hsteer; [discriminate|].
  intros Hquiet. rewrite IH by assumption. now apply handle_event_quiet.
Qed.

Lemma one_turn_keeps_off_the_opposite (events : list Event) :
  forall g,
    is_arrow (last_key_pressed g) = true ->
    (length (filter is_steering events) <= 1)%nat ->
    last_key_pressed (process_events events g)
    <> opposite (last_key_pressed g).
Proof.
  induction events as [|event events IH]; intros g Harrow; simpl.
  - intros _. destruct (last_key_pressed g); discriminate.
  - destruct (is_steering event) eqn:Hsteer; simpl; intros Hcount.
    + assert (Hrest : filter is_steering events = []).
      { destruct (filter is_steering events); [reflexivity | simpl in *; lia]. }
      change (process_events (event :: events) g)
        with (process_events events (handle_event g event)).
      rewrite process_events_quiet by assumption.
      destruct event as [| key |]; try discriminate.
      destruct g as [x y dx dy last segs len score fx fy over quit].
      unfold handle_event; game_fields. revert Harrow.
      destruct key, last; simpl in *; discriminate.
    + change (process_events (event :: events) g)
        with (process_events events (handle_event g event)).
      rewrite <- (handle_event_quiet g event Hsteer).
      apply IH; [|assumption].
      now rewrite handle_event_quiet.
Qed.

(** X14: when a frame holds at most one arrow key press, the snake never
    reverses: the direction it moves in after the frame is not the
    opposite of the one it moved in before. *)
Theorem one_turn_per_frame_never_reverses (g : Game) (events : list Event) :
  session_state g ->
  (length (filter is_steering events) <= 1)%nat ->
  last_key_pressed (advance events g) <> opposite (last_key_pressed g)
  /\ velocity (advance events g)
     <> (- snake_x_change g, - snake_y_change g).
Proof.
  intros Hsession Hcount.
  pose proof (session_state_direction g Hsession) as Hdir.
  pose proof (process_events_direction events g Hdir) as [Harrow' Hvel'].
  destruct Hdir as [Harrow Hvel].
  pose proof (one_turn_keeps_off_the_opposite events g Harrow Hcount) as Hkey.
  destruct (advance_direction events g) as [-> ->].
  split; [assumption|].
  rewrite Hvel'. clear Hvel'. revert Harrow' Hkey.
  generalize (last_key_pressed (process_events events g)) as turned.
  destruct g as [x y dx dy last segs len score fx fy over quit].
  unfold velocity in Hvel; game_fields. intros turned.
  destruct turned, last; simpl in *; try discriminate;
    inversion Hvel; subst; intros _ Hkey;
    solve [congruence | intros E; inversion E].
Qed.

Lemma one_turn_per_frame_never_reverses_witness :
  last_key_pressed (advance [KEYDOWN K_q; KEYDOWN K_DOWN] turning_snake)
  <> opposite (last_key_pressed turning_snake)
  /\ velocity (advance [KEYDOWN K_q; KEYDOWN K_DOWN] turning_snake)
     <> (- snake_x_change turning_snake, - snake_y_change turning_snake).
Proof.
  apply (one_turn_per_frame_never_reverses
           turning_snake [KEYDOWN K_q; KEYDOWN K_DOWN]).
  - exact turning_snake_session_state.
  - simpl. lia.
Defined.

(** ** A meal *)

Lemma respawn_food_consumes (tape : Tape) (segs : list Segment) :
  forall fx fy tape',
    respawn_food tape segs = Some (fx, fy, tape') ->
    (length tape' + 2 <= length tape)%nat.
Proof.
  induction tape as [|raw|raw_x raw_y tape IH] using tape_pairs_ind;
    intros fx fy tape'; simpl; try discriminate.
  destruct (is_on_snake segs (draw_food_x raw_x) (draw_food_y raw_y)).
  - intros Hrest. apply IH in Hrest. lia.
  - intros E; inversion E; subst. lia.
Qed.

(** X15: the frame in which the snake grows is the frame in which its
    head has reached the food; the food then moves to another cell of the
    grid, one that no segment of the snake is on, and at least two random
    draws are used up. *)
Theorem meal_moves_the_food
        (g : Game) (events : list Event) (tape : Tape)
        (g' : Game) (tape' : Tape) :
  session_state g ->
  running g = true ->
  tick events g tape = Some (g', tape') ->
  snake_current_length g' <> snake_current_length g ->
  snake_head_pos g' = food g
  /\ food g' <> food g
  /\ In (food g') grid_cells
  /\ ~ In (food g') (snake_segments g')
  /\ (length tape' + 2 <= length tape)%nat.
Proof.
  intros Hsession Hrun Htick Hgrew.
  apply session_state_invariant in Hsession as Hinv.
  destruct (advance_frame events g) as (Hlen & _ & Hfood & Hsegs).
  unfold tick in Htick; cbv zeta in Htick.
  destruct (game_is_over (advance events g)).
  - inversion Htick; subst. congruence.
  - apply consume_food_cases in Htick
      as [(_ & -> & _) | (Hat & fx & fy & Hspawn & ->)]; [congruence|].
    pose proof (respawn_food_consumes _ _ _ _ _ Hspawn) as Hdraws.
    pose proof (respawn_food_in_grid _ _ _ _ _ Hspawn) as Hgrid.
    apply respawn_food_spec in Hspawn as [Hfree _].
    apply is_on_snake_false in Hfree.
    assert (Hheadin : In (snake_head_pos (advance events g))
                         (snake_segments (advance events g))).
    { rewrite Hsegs. apply trim_keeps_head, (inv_length g Hinv). }
    unfold eat, snake_head_pos, food in *; game_fields.
    split; [congruence|]. split; [|auto].
    intros Heq. apply Hfree. rewrite Heq, <- Hfood, <- Hat. exact Hheadin.
Qed.

Lemma meal_moves_the_food_witness :
  snake_head_pos game_after_first_meal = food game_with_food_ahead
  /\ food game_after_first_meal <> food game_with_food_ahead
  /\ In (food game_after_first_meal) grid_cells
  /\ ~ In (food game_after_first_meal) (snake_segments game_after_first_meal)
  /\ (length (@nil Z) + 2 <= length [0; 0])%nat.
Proof.
  apply (meal_moves_the_food game_with_food_ahead [] [0; 0]
                             game_after_first_meal []).
  - now apply (session_start [21; 15] game_with_food_ahead []).
  - reflexivity.
  - reflexivity.
  - simpl. lia.
Defined.
